(** * dumb_ptr: a reference-counted shared pointer for C

    A shallow embedding of [dumb_ptr.h] (constructor [shared_ptr_init],
    copy constructor [shared_ptr_copy], destructor [shared_ptr_cleanup])
    over an explicit C memory: the [shared_ptr_t] objects the functions
    receive by address, the [malloc]ed blocks, and the trace of the calls
    to [malloc], [free] and to the user's destructor. *)

From stdpp Require Import gmap list strings.

Local Open Scope Z_scope.

(** ** Values *)

(** Every pointer of the header ([uint32_t *], [void *], [destructor_t],
    [shared_ptr_t *]) is an address; the null pointer is address 0. *)
Definition NULL : Z := 0.

(** [uint32_t] arithmetic: the result of [+=] and [-=] is reduced modulo
    2^32. *)
Definition UINT32_MAX : Z := 4294967295.
Definition u32 (z : Z) : Z := z `mod` 4294967296.
Definition sizeof_uint32_t : Z := 4.

(** [typedef struct shared_ptr { uint32_t *refcount; void *ptr;
    destructor_t ptr_destructor; } shared_ptr_t;] *)
Record shared_ptr_t : Type := Shared_ptr {
  refcount : Z;
  ptr : Z;
  ptr_destructor : Z
}.

Global Instance shared_ptr_t_eq_dec : EqDecision shared_ptr_t.
Proof. solve_decision. Defined.

Definition set_refcount (v : Z) (h : shared_ptr_t) : shared_ptr_t :=
  {| refcount := v; ptr := ptr h; ptr_destructor := ptr_destructor h |}.
Definition set_ptr (v : Z) (h : shared_ptr_t) : shared_ptr_t :=
  {| refcount := refcount h; ptr := v; ptr_destructor := ptr_destructor h |}.
Definition set_ptr_destructor (v : Z) (h : shared_ptr_t) : shared_ptr_t :=
  {| refcount := refcount h; ptr := ptr h; ptr_destructor := v |}.

(** ** Memory *)

(** A block handed out by [malloc]: the counter cell before its first
    store, the counter cell holding a [uint32_t], or a payload, whose
    contents the header never looks at. *)
Inductive block : Type :=
  | Undef
  | U32 (v : Z)
  | Payload.

Global Instance block_eq_dec : EqDecision block.
Proof. solve_decision. Defined.

(** What the environment observes: the library calls and the calls of
    the user's destructor, oldest first. *)
Inductive event : Type :=
  | EvMalloc (size res : Z)
  | EvFree (p : Z)
  | EvCall (f arg : Z).

Global Instance event_eq_dec : EqDecision event.
Proof. solve_decision. Defined.

(** [objs] holds the [shared_ptr_t] variables by address (they live on the
    callers' stacks), [heap] the live [malloc] blocks by address. *)
Record state : Type := State {
  objs : gmap Z shared_ptr_t;
  heap : gmap Z block;
  trace : list event
}.

(** ** Computations

    A C statement either yields a value and a new memory, or has undefined
    behaviour ([None]): an access through a pointer to no object, a load
    from a cell that holds no [uint32_t], a [free] of a block that is not
    live. *)
Definition M (A : Type) : Type := state → option (A * state).

Definition ret {A} (a : A) : M A := λ s, Some (a, s).
Definition bind {A B} (c : M A) (k : A → M B) : M B :=
  λ s, match c s with
       | Some (a, s') => k a s'
       | None => None
       end.

Declare Scope cmd_scope.
Delimit Scope cmd_scope with cmd.
Notation "x <- c ;; k" := (bind c (λ x, k))
  (at level 100, c at next level, right associativity) : cmd_scope.
Notation "c ;; k" := (bind c (λ _, k))
  (at level 100, right associativity) : cmd_scope.
Local Open Scope cmd_scope.

Definition log (e : event) : M unit :=
  λ s, Some (tt, {| objs := objs s; heap := heap s; trace := trace s ++ [e] |}).

(** [this->field] as an rvalue. *)
Definition read (this : Z) (field : shared_ptr_t → Z) : M Z :=
  λ s, match objs s !! this with
       | Some h => Some (field h, s)
       | None => None
       end.

(** [this->field = v], [upd] being the field's setter applied to [v]. *)
Definition write (this : Z) (upd : shared_ptr_t → shared_ptr_t) : M unit :=
  λ s, match objs s !! this with
       | Some h => Some (tt, {| objs := <[this := upd h]> (objs s);
                                 heap := heap s; trace := trace s |})
       | None => None
       end.

(** [*p] as an rvalue of type [uint32_t]. *)
Definition load_u32 (p : Z) : M Z :=
  λ s, match heap s !! p with
       | Some (U32 v) => Some (v, s)
       | _ => None
       end.

(** [*p = v] for [uint32_t *p]. *)
Definition store_u32 (p v : Z) : M unit :=
  λ s, match heap s !! p with
       | Some Undef | Some (U32 _) =>
           Some (tt, {| objs := objs s; heap := <[p := U32 (u32 v)]> (heap s);
                        trace := trace s |})
       | _ => None
       end.

(** [malloc(size)]. The allocator's answer [res] is the environment's
    choice: [NULL] when it is out of memory, otherwise the address of a
    block that is not live, whose contents are indeterminate. *)
Definition malloc (res size : Z) : M Z :=
  λ s, if decide (res = NULL)
       then Some (NULL, {| objs := objs s; heap := heap s;
                           trace := trace s ++ [EvMalloc size NULL] |})
       else match heap s !! res with
            | None => Some (res, {| objs := objs s;
                                    heap := <[res := Undef]> (heap s);
                                    trace := trace s ++ [EvMalloc size res] |})
            | Some _ => None
            end.

(** [free(p)]: nothing happens for the null pointer, a live block is given
    back, anything else is undefined. *)
Definition free (p : Z) : M unit :=
  λ s, if decide (p = NULL)
       then Some (tt, {| objs := objs s; heap := heap s;
                         trace := trace s ++ [EvFree p] |})
       else match heap s !! p with
            | Some _ => Some (tt, {| objs := objs s; heap := delete p (heap s);
                                     trace := trace s ++ [EvFree p] |})
            | None => None
            end.

(** [f(arg)] for a destructor [f]: the callee is the user's code, the
    model records that it ran and on what. *)
Definition call (f arg : Z) : M unit := log (EvCall f arg).

(** ** The three functions of [dumb_ptr.h] *)

(** [shared_ptr_init], with [m] the answer of its one [malloc]. *)
Definition shared_ptr_init (m : Z) (this ptr_ ptr_destructor_ : Z) : M bool :=
  write this (set_ptr ptr_) ;;
  write this (set_ptr_destructor ptr_destructor_) ;;
  r <- malloc m sizeof_uint32_t ;;
  write this (set_refcount r) ;;
  r <- read this refcount ;;
  if decide (r = NULL) then ret false
  else
    store_u32 r 1 ;;
    ret true.

(** [shared_ptr_copy]. *)
Definition shared_ptr_copy (this that : Z) : M unit :=
  p <- read that ptr ;;
  write this (set_ptr p) ;;
  r <- read that refcount ;;
  write this (set_refcount r) ;;
  r <- read this refcount ;;
  v <- load_u32 r ;;
  store_u32 r (v + 1).

(** [shared_ptr_cleanup]. *)
Definition shared_ptr_cleanup (this : Z) : M unit :=
  r <- read this refcount ;;
  v <- load_u32 r ;;
  store_u32 r (v - 1) ;;
  r <- read this refcount ;;
  v <- load_u32 r ;;
  if decide (v = 0) then
    r <- read this refcount ;;
    free r ;;
    d <- read this ptr_destructor ;;
    (if decide (d = NULL) then ret tt
     else
       p <- read this ptr ;;
       call d p) ;;
    p <- read this ptr ;;
    free p
  else ret tt.

(** ** Observations *)

(** The value of the counter a handle refers to, when there is one. *)
Definition counter (this : Z) (s : state) : option Z :=
  match objs s !! this with
  | Some h => match heap s !! refcount h with
              | Some (U32 v) => Some v
              | _ => None
              end
  | None => None
  end.

(** The first [e1] of a trace comes before its first [e2]. *)
Fixpoint occurs_before (e1 e2 : event) (tr : list event) : bool :=
  match tr with
  | [] => false
  | e :: tr' =>
      if decide (e = e1) then bool_decide (e2 ∈ tr')
      else if decide (e = e2) then false
      else occurs_before e1 e2 tr'
  end.

(** How often a destructor ran. *)
Definition is_call (e : event) : bool :=
  match e with EvCall _ _ => true | _ => false end.
Definition finalizer_runs (tr : list event) : nat :=
  length (filter (λ e, is_call e = true) tr).

(** ** Concrete memories used in the examples *)

(** Two handle variables at 1000 and 2000 holding zeroes, a payload block
    at 64. *)
Definition st_fresh : state :=
  {| objs := {[ 1000 := Shared_ptr 0 0 0; 2000 := Shared_ptr 0 0 0 ]};
     heap := {[ 64 := Payload ]};
     trace := [] |}.

(** A group of [n] at counter cell 32 over the payload at 64, finalizer 7;
    the handle at 1000 belongs to it, the variable at 2000 does not yet. *)
Definition st_group (n : Z) : state :=
  {| objs := {[ 1000 := Shared_ptr 32 64 7; 2000 := Shared_ptr 1 2 3 ]};
     heap := {[ 32 := U32 n; 64 := Payload ]};
     trace := [] |}.

(** ** Effects of the zero-transition *)

(** The heap after [free(p)]. *)
Definition heap_free (p : Z) (hp : gmap Z block) : gmap Z block :=
  if decide (p = NULL) then hp else delete p hp.

(** The events of the zero-transition of a handle [h]. *)
Definition teardown (h : shared_ptr_t) : list event :=
  EvFree (refcount h)
  :: (if decide (ptr_destructor h = NULL) then []
      else [EvCall (ptr_destructor h) (ptr h)])
  ++ [EvFree (ptr h)].


(** ** Sequences of copies and cleanups *)

(** A call of the copy constructor or of the destructor on a variable. *)
Inductive op : Type :=
  | Share (this that : Z)
  | Release (this : Z).

Global Instance op_eq_dec : EqDecision op.
Proof. solve_decision. Defined.

(** The variable an operation is called on (its [this]). *)
Definition operand (o : op) : Z :=
  match o with
  | Share this _ => this
  | Release this => this
  end.

Definition run_op (o : op) : M unit :=
  match o with
  | Share this that => shared_ptr_copy this that
  | Release this => shared_ptr_cleanup this
  end.

Fixpoint run (ops : list op) : M unit :=
  match ops with
  | [] => ret tt
  | o :: ops' => run_op o ;; run ops'
  end.

(** The call discipline the header's comments ask for, over the set of
    live variables: a copy initialises a variable that is not live from one
    that is, and the cleanup fires once on a live variable, which is dead
    from then on. [None] when an operation breaks it. *)
Definition follow (live : gset Z) (o : op) : option (gset Z) :=
  match o with
  | Share this that =>
      if decide (that ∈ live ∧ this ∉ live) then Some ({[this]} ∪ live)
      else None
  | Release this =>
      if decide (this ∈ live) then Some (live ∖ {[this]}) else None
  end.

Fixpoint track (live : gset Z) (ops : list op) : option (gset Z) :=
  match ops with
  | [] => Some live
  | o :: ops' =>
      match follow live o with
      | Some live' => track live' ops'
      | None => None
      end
  end.

(** The largest number of live variables along a sequence. *)
Fixpoint peak (live : gset Z) (ops : list op) : nat :=
  match ops with
  | [] => size live
  | o :: ops' =>
      match follow live o with
      | Some live' => size live `max` peak live' ops'
      | None => size live
      end
  end.

(** [k] copies of the variable at [base] into the variables at
    [slot i], [slot (i+1)], ... *)
Definition slot (i : Z) : Z := 1000 + 24 * i.

Fixpoint shares_from (base : Z) (i : Z) (k : nat) : list op :=
  match k with
  | O => []
  | S k' => Share (slot i) base :: shares_from base (i + 1) k'
  end.

(** A memory with [n] zeroed handle variables at [slot 0 .. slot (n-1)]
    and one payload block at 64. *)
Definition st_many (n : Z) : state :=
  {| objs := gset_to_gmap (Shared_ptr 0 0 0) (list_to_set (slot <$> seqZ 0 n));
     heap := {[ 64 := Payload ]};
     trace := [] |}.

(** [st_fresh] after [shared_ptr_init(&v1000, 64, 7)] with the counter
    cell allocated at 32. *)
Definition st_built : state :=
  {| objs := {[ 1000 := Shared_ptr 32 64 7; 2000 := Shared_ptr 0 0 0 ]};
     heap := {[ 32 := U32 1; 64 := Payload ]};
     trace := [EvMalloc sizeof_uint32_t 32] |}.

(** ** Groups *)

(** The variables in [live] are handles of one group: each holds the
    counter cell [rc] and the payload [p], the cell holds their number,
    and the payload is what the constructor asks for, null or a live block
    of its own that [free] can take. *)
Definition group (rc p : Z) (live : gset Z) (s : state) : Prop :=
  rc ≠ NULL
  ∧ (∀ a, a ∈ live →
          ∃ h, objs s !! a = Some h ∧ refcount h = rc ∧ ptr h = p)
  ∧ heap s !! rc = Some (U32 (Z.of_nat (size live)))
  ∧ (p = NULL ∨ p ≠ rc ∧ is_Some (heap s !! p)).

(** Every operation of a sequence is called on a variable that exists. *)
Definition declared (s : state) (ops : list op) : Prop :=
  Forall (λ o, is_Some (objs s !! operand o)) ops.

(** ** The scope-exit hook and [example.c] *)

(** [int] read from a 32-bit word. *)
Definition int_of_u32 (w : Z) : Z :=
  if decide (w < 2147483648) then w else w - 4294967296.

(** [struct test { int val1; }]: one [int], so a block of this type is
    one 32-bit word. *)
Definition sizeof_struct_test : Z := 4.

(** [D(struct test, p).val1] for the [shared_ptr_t] variable at [p], as an
    rvalue and as the target of an assignment: the macro [D] casts the
    handle's [ptr] and dereferences it. *)
Definition D_val1 (p : Z) : M Z :=
  a <- read p ptr ;;
  w <- load_u32 a ;;
  ret (int_of_u32 w).

Definition D_val1_assign (p v : Z) : M unit :=
  a <- read p ptr ;;
  store_u32 a v.

(** The scope of a [shared_ptr_t] variable is entered: it gets the
    storage at [this], which no other variable has, with indeterminate
    contents [junk]. *)
Definition declare (this : Z) (junk : shared_ptr_t) : M unit :=
  λ s, match objs s !! this with
       | None => Some (tt, {| objs := <[this := junk]> (objs s);
                              heap := heap s; trace := trace s |})
       | Some _ => None
       end.

(** The scope is left: the storage is gone. *)
Definition leave (this : Z) : M unit :=
  λ s, Some (tt, {| objs := delete this (objs s);
                    heap := heap s; trace := trace s |}).

(** What the program wrote: one entry per [printf], with the format as
    the source spells it and the values of the arguments. *)
Inductive output : Type :=
  | Printf (format : string) (args : list Z).

(** The memory and the standard output. *)
Record process : Type := Process {
  mem : state;
  stdout : list output
}.

Definition P (A : Type) : Type := process → option (A * process).

Definition pret {A} (a : A) : P A := λ w, Some (a, w).
Definition pbind {A B} (c : P A) (k : A → P B) : P B :=
  λ w, match c w with
       | Some (a, w') => k a w'
       | None => None
       end.

Declare Scope prog_scope.
Delimit Scope prog_scope with prog.
Notation "x <- c ;; k" := (pbind c (λ x, k))
  (at level 100, c at next level, right associativity) : prog_scope.
Notation "c ;; k" := (pbind c (λ _, k))
  (at level 100, right associativity) : prog_scope.

Definition printf (format : string) (args : list Z) : P unit :=
  λ w, Some (tt, {| mem := mem w; stdout := stdout w ++ [Printf format args] |}).

(** [void test_destructor(void *test)]. *)
Definition test_destructor_body (test : Z) : P unit :=
  printf "Destructing test struct!\n" [].

(** A call through a [destructor_t] in this program: [test_destructor]
    being the address of the one function there is to point to, any other
    value is a pointer to no function. *)
Definition call_through (test_destructor f arg : Z) : P unit :=
  if decide (f = test_destructor) then test_destructor_body arg
  else λ _, None.

(** The destructor calls among the events of a library call, run in
    order. *)
Fixpoint run_calls (test_destructor : Z) (evs : list event) : P unit :=
  match evs with
  | [] => pret tt
  | EvCall f arg :: evs' =>
      pbind (call_through test_destructor f arg)
            (λ _, run_calls test_destructor evs')
  | _ :: evs' => run_calls test_destructor evs'
  end.

(** A statement of the header run inside the program: its effect on the
    memory, and the output of the destructors it called. *)
Definition lib {A} (test_destructor : Z) (c : M A) : P A :=
  λ w, match c (mem w) with
       | Some (a, s') =>
           match run_calls test_destructor
                   (drop (length (trace (mem w))) (trace s'))
                   {| mem := s'; stdout := stdout w |} with
           | Some (_, w') => Some (a, w')
           | None => None
           end
       | None => None
       end.

(** [shared_ptr_t v RAII_SHARED_PTR; body]: the macro attaches
    [shared_ptr_cleanup] to the variable, so that it runs on [&v] when the
    scope is left, whether [body] falls off its end or returns early. *)
Definition RAII_SHARED_PTR {A} (test_destructor : Z) (this : Z)
    (junk : shared_ptr_t) (body : P A) : P A :=
  (lib test_destructor (declare this junk) ;;
   r <- body ;;
   lib test_destructor (shared_ptr_cleanup this) ;;
   lib test_destructor (leave this) ;;
   pret r)%prog.

(** [void print_val1(shared_ptr_t *ptr_)], its local [ptr] at [loc]. *)
Definition print_val1 (test_destructor : Z) (loc : Z) (junk : shared_ptr_t)
    (ptr_ : Z) : P unit :=
  RAII_SHARED_PTR test_destructor loc junk
    (lib test_destructor (shared_ptr_copy loc ptr_) ;;
     v <- lib test_destructor (D_val1 loc) ;;
     printf "The value of val1 is: %d\n" [v])%prog.

(** The statements of [main] between the declaration of [test_ptr] and
    the end of its scope; the value is what [main] returns. [mp] and [mc]
    are the answers of the two [malloc]s, for the [struct test] and for
    the counter. *)
Definition main_body (test_destructor : Z) (test_ptr mp mc : Z)
    (loc : Z) (junk' : shared_ptr_t) : P Z :=
  (p <- lib test_destructor (malloc mp sizeof_struct_test) ;;
   res <- lib test_destructor
            (shared_ptr_init mc test_ptr p test_destructor) ;;
   if negb res then
     printf "Failed to create shared_ptr!\n" [] ;;
     pret 1
   else
     lib test_destructor (D_val1_assign test_ptr 100) ;;
     print_val1 test_destructor loc junk' test_ptr ;;
     printf "returned from print_val1!\n" [] ;;
     pret 0)%prog.

(** [int main()]. *)
Definition main (test_destructor : Z) (test_ptr : Z) (junk : shared_ptr_t)
    (mp mc : Z) (loc : Z) (junk' : shared_ptr_t) : P Z :=
  RAII_SHARED_PTR test_destructor test_ptr junk
    (main_body test_destructor test_ptr mp mc loc junk').

(** A process with an empty memory and nothing written yet. *)
Definition w_start : process :=
  {| mem := {| objs := ∅; heap := ∅; trace := [] |}; stdout := [] |}.

(** A process in which the variable at 1000 is the one handle of a group
    over a [struct test] whose [val1] is 5. *)
Definition w_val : process :=
  {| mem := {| objs := {[ 1000 := Shared_ptr 32 64 4096 ]};
               heap := {[ 32 := U32 1; 64 := U32 5 ]};
               trace := [] |};
     stdout := [] |}.

(** The memory of [w_val] with one more variable, at 2000. *)
Definition st_val : state :=
  {| objs := {[ 1000 := Shared_ptr 32 64 4096; 2000 := Shared_ptr 4 5 6 ]};
     heap := {[ 32 := U32 1; 64 := U32 5 ]};
     trace := [] |}.
(** ** Symbolic execution of the three functions *)

Ltac exec :=
  unfold shared_ptr_init, shared_ptr_copy, shared_ptr_cleanup,
    bind, ret, read, write, load_u32, store_u32, malloc, free, call, log;
  repeat (simpl; simplify_map_eq; repeat case_decide; try done).

Lemma init_fails this p d h s :
  objs s !! this = Some h →
  shared_ptr_init NULL this p d s
  = Some (false, {| objs := <[this := Shared_ptr NULL p d]> (objs s);
                    heap := heap s;
                    trace := trace s ++ [EvMalloc sizeof_uint32_t NULL] |}).
Proof.
  intros Hthis. exec. by rewrite !insert_insert_eq.
Qed.

Lemma init_succeeds m this p d h s :
  objs s !! this = Some h → m ≠ NULL → heap s !! m = None →
  shared_ptr_init m this p d s
  = Some (true, {| objs := <[this := Shared_ptr m p d]> (objs s);
                   heap := <[m := U32 1]> (heap s);
                   trace := trace s ++ [EvMalloc sizeof_uint32_t m] |}).
Proof.
  intros Hthis Hm Hfresh. exec. by rewrite !insert_insert_eq.
Qed.

Lemma copy_runs this that hd hs n s :
  objs s !! this = Some hd → objs s !! that = Some hs →
  heap s !! refcount hs = Some (U32 n) →
  shared_ptr_copy this that s
  = Some (tt, {| objs := <[this := Shared_ptr (refcount hs) (ptr hs)
                                     (ptr_destructor hd)]> (objs s);
                 heap := <[refcount hs := U32 (u32 (n + 1))]> (heap s);
                 trace := trace s |}).
Proof.
  intros Hthis Hthat Hcell.
  destruct (decide (this = that)) as [->|Hne]; exec;
    by rewrite !insert_insert_eq.
Qed.

Lemma cleanup_keeps this h n s :
  objs s !! this = Some h → heap s !! refcount h = Some (U32 n) →
  u32 (n - 1) ≠ 0 →
  shared_ptr_cleanup this s
  = Some (tt, {| objs := objs s;
                 heap := <[refcount h := U32 (u32 (n - 1))]> (heap s);
                 trace := trace s |}).
Proof.
  intros Hthis Hcell Hpos. exec.
Qed.

Lemma cleanup_frees this h n s :
  objs s !! this = Some h → heap s !! refcount h = Some (U32 n) →
  u32 (n - 1) = 0 → refcount h ≠ NULL →
  ptr h = NULL ∨ ptr h ≠ refcount h ∧ is_Some (heap s !! ptr h) →
  shared_ptr_cleanup this s
  = Some (tt, {| objs := objs s;
                 heap := heap_free (ptr h) (delete (refcount h) (heap s));
                 trace := trace s ++ teardown h |}).
Proof.
  intros Hthis Hcell Hzero Hrc Hp. unfold heap_free, teardown.
  destruct Hp as [Hp|[Hp [b Hb]]]; exec;
    by rewrite delete_insert_eq, <- ?app_assoc.
Qed.

(** ** Runs on the concrete memories *)

Example init_then_counter :
  (shared_ptr_init 32 1000 64 7 ;; ret tt) st_fresh
  = Some (tt, {| objs := {[ 1000 := Shared_ptr 32 64 7;
                            2000 := Shared_ptr 0 0 0 ]};
                 heap := {[ 32 := U32 1; 64 := Payload ]};
                 trace := [EvMalloc 4 32] |}).
Proof. vm_compute. reflexivity. Qed.

Example copy_on_group :
  shared_ptr_copy 2000 1000 (st_group 1)
  = Some (tt, {| objs := {[ 1000 := Shared_ptr 32 64 7;
                            2000 := Shared_ptr 32 64 3 ]};
                 heap := {[ 32 := U32 2; 64 := Payload ]};
                 trace := [] |}).
Proof. vm_compute. reflexivity. Qed.

Example cleanup_on_last :
  shared_ptr_cleanup 1000 (st_group 1)
  = Some (tt, {| objs := objs (st_group 1);
                 heap := ∅;
                 trace := [EvFree 32; EvCall 7 64; EvFree 64] |}).
Proof. vm_compute. reflexivity. Qed.

(** ** The constructor *)

(** What a call that returned tells about its arguments. *)
Lemma init_inv m this p d s b s' :
  shared_ptr_init m this p d s = Some (b, s') →
  ∃ h, objs s !! this = Some h
       ∧ (m = NULL ∧ b = false ∨ m ≠ NULL ∧ heap s !! m = None ∧ b = true).
Proof.
  intros Hrun. destruct (objs s !! this) as [h|] eqn:Hthis;
    [|by revert Hrun; exec].
  exists h. split; [done|].
  destruct (decide (m = NULL)) as [->|Hm].
  - left. rewrite (init_fails _ _ _ h) in Hrun by done. by simplify_eq.
  - right. destruct (heap s !! m) as [b'|] eqn:Hcell.
    + revert Hrun. exec.
    + rewrite (init_succeeds _ _ _ _ h) in Hrun by done. by simplify_eq.
Qed.

(** C7. When the counter allocation succeeds ([malloc] answers a non-null
    address [m] of a block that was not live), the constructor returns
    true, the counter of the handle is exactly 1, and the handle holds the
    new counter cell, the caller's payload pointer and the caller's
    destructor. *)
Theorem init_success_counter_is_one m this p d h s :
  objs s !! this = Some h → m ≠ NULL → heap s !! m = None →
  ∃ s', shared_ptr_init m this p d s = Some (true, s')
        ∧ counter this s' = Some 1
        ∧ objs s' !! this = Some (Shared_ptr m p d).
Proof.
  intros Hthis Hm Hfresh. eexists. split; [by eapply init_succeeds|].
  unfold counter. by simplify_map_eq.
Qed.

Lemma init_success_counter_is_one_witness :
  ∃ s', shared_ptr_init 32 1000 64 7 st_fresh = Some (true, s')
        ∧ counter 1000 s' = Some 1
        ∧ objs s' !! 1000 = Some (Shared_ptr 32 64 7).
Proof.
  apply (init_success_counter_is_one 32 1000 64 7 (Shared_ptr 0 0 0) st_fresh);
    [reflexivity | discriminate | reflexivity].
Defined.

(** C8. When the counter allocation fails ([malloc] answers [NULL]), the
    constructor returns false; the heap is what it was, so the payload
    block is still live and untouched; the only call made is the failed
    [malloc], so nothing was freed and no destructor ran; and the pointer
    kept in the handle is the caller's, unmodified. *)
Theorem init_failure_leaves_payload this p d h s :
  objs s !! this = Some h →
  ∃ s', shared_ptr_init NULL this p d s = Some (false, s')
        ∧ heap s' = heap s
        ∧ trace s' = trace s ++ [EvMalloc sizeof_uint32_t NULL]
        ∧ ptr <$> objs s' !! this = Some p.
Proof.
  intros Hthis. eexists. split; [by eapply init_fails|].
  by simplify_map_eq.
Qed.

Lemma init_failure_leaves_payload_witness :
  ∃ s', shared_ptr_init NULL 1000 64 7 st_fresh = Some (false, s')
        ∧ heap s' = heap st_fresh
        ∧ trace s' = trace st_fresh ++ [EvMalloc sizeof_uint32_t NULL]
        ∧ ptr <$> objs s' !! 1000 = Some 64.
Proof.
  apply (init_failure_leaves_payload 1000 64 7 (Shared_ptr 0 0 0) st_fresh).
  reflexivity.
Defined.

(** C3, as stated, fails: a constructor call whose allocation fails has
    already overwritten the three fields of the caller's cell. Here the
    cell held (1, 2, 3) and holds (NULL, 64, 7) after the failed call. *)
Lemma init_failure_overwrites_cell :
  ∃ s', shared_ptr_init NULL 2000 64 7 (st_group 1) = Some (false, s')
        ∧ objs (st_group 1) !! 2000 = Some (Shared_ptr 1 2 3)
        ∧ objs s' !! 2000 = Some (Shared_ptr NULL 64 7)
        ∧ objs s' !! 2000 ≠ objs (st_group 1) !! 2000.
Proof.
  eexists. split; [reflexivity|]. split; [reflexivity|].
  split; [reflexivity|]. discriminate.
Qed.

(** C3, amended. When the counter allocation fails the constructor
    returns false and changes neither the heap nor any other cell; the
    caller's cell has its payload pointer and destructor set to the
    arguments and its counter pointer set to [NULL]. *)
Theorem init_failure_cell this p d h s :
  objs s !! this = Some h →
  ∃ s', shared_ptr_init NULL this p d s = Some (false, s')
        ∧ objs s' !! this = Some (Shared_ptr NULL p d)
        ∧ (∀ a, a ≠ this → objs s' !! a = objs s !! a)
        ∧ heap s' = heap s.
Proof.
  intros Hthis. eexists. split; [by eapply init_fails|].
  simpl. split; [by simplify_map_eq|]. split; [|done].
  intros a Ha. by rewrite lookup_insert_ne.
Qed.

Lemma init_failure_cell_witness :
  ∃ s', shared_ptr_init NULL 2000 64 7 (st_group 1) = Some (false, s')
        ∧ objs s' !! 2000 = Some (Shared_ptr NULL 64 7)
        ∧ (∀ a, a ≠ 2000 → objs s' !! a = objs (st_group 1) !! a)
        ∧ heap s' = heap (st_group 1).
Proof.
  apply (init_failure_cell 2000 64 7 (Shared_ptr 1 2 3) (st_group 1)).
  reflexivity.
Defined.

(** ** The copy constructor *)

(** C4. A copy writes the payload pointer and the counter pointer of the
    destination and nothing else of it: the destination's destructor
    field is the one it had before the call, not the source's, and every
    other variable is as it was. *)
Theorem copy_leaves_destructor_field this that hd hs n s :
  objs s !! this = Some hd → objs s !! that = Some hs →
  heap s !! refcount hs = Some (U32 n) →
  ∃ s' h', shared_ptr_copy this that s = Some (tt, s')
        ∧ objs s' !! this = Some h'
        ∧ ptr h' = ptr hs
        ∧ refcount h' = refcount hs
        ∧ ptr_destructor h' = ptr_destructor hd
        ∧ (∀ a, a ≠ this → objs s' !! a = objs s !! a).
Proof.
  intros Hthis Hthat Hcell. eexists _, _.
  split; [by eapply copy_runs|]. simpl.
  split; [by simplify_map_eq|]. repeat split.
  intros a Ha. by rewrite lookup_insert_ne.
Qed.

Lemma copy_leaves_destructor_field_witness :
  ∃ s' h', shared_ptr_copy 2000 1000 (st_group 1) = Some (tt, s')
        ∧ objs s' !! 2000 = Some h'
        ∧ ptr h' = 64
        ∧ refcount h' = 32
        ∧ ptr_destructor h' = 3
        ∧ (∀ a, a ≠ 2000 → objs s' !! a = objs (st_group 1) !! a).
Proof.
  apply (copy_leaves_destructor_field 2000 1000 (Shared_ptr 1 2 3)
           (Shared_ptr 32 64 7) 1 (st_group 1)); reflexivity.
Defined.

(** C6, amended. On a handle of a live group whose counter holds [n], a
    copy returns, makes no library call (so allocates nothing) and leaves
    the set of live blocks as it is; the new handle has the source's
    payload address; the counter becomes [n + 1] modulo 2^32, which is
    [n + 1] as long as [n] is below 2^32 - 1. *)
Theorem copy_increments_mod this that hd hs n s :
  objs s !! this = Some hd → objs s !! that = Some hs →
  heap s !! refcount hs = Some (U32 n) →
  0 ≤ n ≤ UINT32_MAX →
  ∃ s', shared_ptr_copy this that s = Some (tt, s')
        ∧ trace s' = trace s
        ∧ dom (heap s') = dom (heap s)
        ∧ ptr <$> objs s' !! this = Some (ptr hs)
        ∧ counter this s' = Some ((n + 1) `mod` 2 ^ 32)
        ∧ counter that s' = counter this s'
        ∧ (n < UINT32_MAX → counter this s' = Some (n + 1)).
Proof.
  intros Hthis Hthat Hcell Hn. eexists.
  split; [by eapply copy_runs|]. simpl.
  split; [done|]. split.
  { by apply dom_insert_lookup_L. }
  split; [by simplify_map_eq|].
  assert (Hc : counter this
    {| objs := <[this:=Shared_ptr (refcount hs) (ptr hs) (ptr_destructor hd)]>
                 (objs s);
       heap := <[refcount hs:=U32 (u32 (n + 1))]> (heap s);
       trace := trace s |} = Some ((n + 1) `mod` 2 ^ 32)).
  { unfold counter. by simplify_map_eq. }
  split; [done|]. split.
  - rewrite Hc. unfold counter. simpl.
    destruct (decide (this = that)) as [->|Hne]; by simplify_map_eq.
  - intros Hlt. rewrite Hc. f_equal. unfold UINT32_MAX in *.
    apply Z.mod_small. lia.
Qed.

Lemma copy_increments_mod_witness :
  ∃ s', shared_ptr_copy 2000 1000 (st_group 5) = Some (tt, s')
        ∧ trace s' = trace (st_group 5)
        ∧ dom (heap s') = dom (heap (st_group 5))
        ∧ ptr <$> objs s' !! 2000 = Some 64
        ∧ counter 2000 s' = Some ((5 + 1) `mod` 2 ^ 32)
        ∧ counter 1000 s' = counter 2000 s'
        ∧ (5 < UINT32_MAX → counter 2000 s' = Some (5 + 1)).
Proof.
  apply (copy_increments_mod 2000 1000 (Shared_ptr 1 2 3)
           (Shared_ptr 32 64 7) 5 (st_group 5));
    [reflexivity | reflexivity | reflexivity | unfold UINT32_MAX; lia].
Defined.

(** ** The destructor *)

(** C9. On a handle whose counter holds [n] with [n > 1], the cleanup
    returns with the counter at [n - 1] and has freed nothing and called
    nothing: the trace is the one before the call, the counter cell is the
    only block written, both the counter cell and every other block (the
    payload among them) are still live, and no variable changed. *)
Theorem cleanup_above_one_only_decrements this h n s :
  objs s !! this = Some h → heap s !! refcount h = Some (U32 n) →
  1 < n ≤ UINT32_MAX →
  ∃ s', shared_ptr_cleanup this s = Some (tt, s')
        ∧ counter this s' = Some (n - 1)
        ∧ trace s' = trace s
        ∧ dom (heap s') = dom (heap s)
        ∧ (∀ a, a ≠ refcount h → heap s' !! a = heap s !! a)
        ∧ objs s' = objs s.
Proof.
  intros Hthis Hcell Hn.
  assert (Hsmall : u32 (n - 1) = n - 1).
  { unfold u32, UINT32_MAX in *. apply Z.mod_small. lia. }
  eexists. split.
  { eapply cleanup_keeps; [done..|]. lia. }
  simpl. split.
  { unfold counter. simplify_map_eq. by rewrite Hsmall. }
  split; [done|]. split; [by apply dom_insert_lookup_L|].
  split; [|done]. intros a Ha. by rewrite lookup_insert_ne.
Qed.

Lemma cleanup_above_one_only_decrements_witness :
  ∃ s', shared_ptr_cleanup 1000 (st_group 2) = Some (tt, s')
        ∧ counter 1000 s' = Some (2 - 1)
        ∧ trace s' = trace (st_group 2)
        ∧ dom (heap s') = dom (heap (st_group 2))
        ∧ (∀ a, a ≠ 32 → heap s' !! a = heap (st_group 2) !! a)
        ∧ objs s' = objs (st_group 2).
Proof.
  apply (cleanup_above_one_only_decrements 1000 (Shared_ptr 32 64 7) 2
           (st_group 2)); [reflexivity | reflexivity | by vm_compute].
Defined.

(** C2, as stated, fails: the cleanup that brings the counter to 0 frees
    the counter cell first, before it calls the destructor and before it
    frees the payload. On the group of one at cell 32 with payload 64 and
    destructor 7 the calls are [free(32)], [7(64)], [free(64)]. *)
Lemma cleanup_frees_counter_first :
  ∃ s', shared_ptr_cleanup 1000 (st_group 1) = Some (tt, s')
        ∧ trace s' = [EvFree 32; EvCall 7 64; EvFree 64]
        ∧ occurs_before (EvFree 64) (EvFree 32) (trace s') = false
        ∧ occurs_before (EvFree 32) (EvCall 7 64) (trace s') = true.
Proof.
  eexists. split; [reflexivity|]. repeat split.
Qed.

(** C2, amended. The cleanup that brings the counter from 1 to 0 makes,
    in this order and in that same call: the [free] of the counter cell,
    then the call of the destructor on the payload address when the
    handle's destructor is not null, then the [free] of the payload.
    Afterwards neither block is live. *)
Theorem cleanup_zero_transition_order this h s :
  objs s !! this = Some h → heap s !! refcount h = Some (U32 1) →
  refcount h ≠ NULL →
  ptr h = NULL ∨ ptr h ≠ refcount h ∧ is_Some (heap s !! ptr h) →
  ∃ s', shared_ptr_cleanup this s = Some (tt, s')
        ∧ trace s'
          = trace s
            ++ [EvFree (refcount h)]
            ++ (if decide (ptr_destructor h = NULL) then []
                else [EvCall (ptr_destructor h) (ptr h)])
            ++ [EvFree (ptr h)]
        ∧ heap s' !! refcount h = None
        ∧ (ptr h ≠ NULL → heap s' !! ptr h = None).
Proof.
  intros Hthis Hcell Hrc Hp. eexists. split.
  { by eapply cleanup_frees. }
  simpl. split; [done|]. unfold heap_free. split.
  - case_decide; [by rewrite lookup_delete_eq|].
    destruct Hp as [?|[Hne _]]; [done|].
    by rewrite lookup_delete_ne, lookup_delete_eq.
  - intros Hnn. case_decide; [done|]. by rewrite lookup_delete_eq.
Qed.

Lemma cleanup_zero_transition_order_witness :
  ∃ s', shared_ptr_cleanup 1000 (st_group 1) = Some (tt, s')
        ∧ trace s'
          = trace (st_group 1)
            ++ [EvFree 32]
            ++ (if decide (7 = NULL) then [] else [EvCall 7 64])
            ++ [EvFree 64]
        ∧ heap s' !! 32 = None
        ∧ (64 ≠ NULL → heap s' !! 64 = None).
Proof.
  apply (cleanup_zero_transition_order 1000 (Shared_ptr 32 64 7) (st_group 1));
    [reflexivity | reflexivity | discriminate |].
  right. split; [discriminate|]. by eexists.
Defined.

(** C10. The counter is a [uint32_t] and its updates wrap: a copy on a
    counter holding 2^32 - 1 leaves it at 0, and a cleanup on a counter
    holding 0 leaves it at 2^32 - 1, frees nothing and calls nothing.
    Whatever the counter held, both leave a value between 0 and
    2^32 - 1 in a cell that is still live. *)
Theorem counter_wraps_mod_2_32 this that hd hs s :
  objs s !! this = Some hd → objs s !! that = Some hs →
  (heap s !! refcount hs = Some (U32 UINT32_MAX) →
   ∃ s', shared_ptr_copy this that s = Some (tt, s')
         ∧ counter that s' = Some 0)
  ∧ (heap s !! refcount hs = Some (U32 0) →
     ∃ s', shared_ptr_cleanup that s = Some (tt, s')
           ∧ counter that s' = Some UINT32_MAX
           ∧ trace s' = trace s)
  ∧ (∀ s' v, shared_ptr_copy this that s = Some (tt, s') →
             counter that s' = Some v → 0 ≤ v ≤ UINT32_MAX)
  ∧ (∀ s' v, shared_ptr_cleanup that s = Some (tt, s') →
             counter that s' = Some v → 0 ≤ v ≤ UINT32_MAX).
Proof.
  intros Hthis Hthat.
  assert (Hrange : ∀ z, 0 ≤ u32 z ≤ UINT32_MAX).
  { intros z. unfold u32, UINT32_MAX.
    pose proof (Z.mod_pos_bound z 4294967296). lia. }
  split; [|split; [|split]].
  - intros Hcell. eexists. split; [by eapply copy_runs|].
    unfold counter. simpl.
    destruct (decide (this = that)) as [->|Hne]; by simplify_map_eq.
  - intros Hcell. eexists. split; [by eapply cleanup_keeps|].
    unfold counter. by simplify_map_eq.
  - intros s' v Hrun Hv.
    destruct (heap s !! refcount hs) as [[|n|]|] eqn:Hcell;
      try (by revert Hrun; destruct (decide (this = that)) as [->|Hne]; exec).
    rewrite (copy_runs _ _ hd hs n) in Hrun by done. simplify_eq.
    revert Hv. unfold counter. simpl.
    destruct (decide (this = that)) as [->|Hne];
      simplify_map_eq; intros [= <-]; apply Hrange.
  - intros s' v Hrun Hv.
    destruct (heap s !! refcount hs) as [[|n|]|] eqn:Hcell;
      try (by revert Hrun; exec).
    destruct (decide (u32 (n - 1) = 0)) as [Hz|Hnz].
    + revert Hrun Hv. unfold counter. exec.
      all: intros Hrun Hv; repeat case_match; simplify_eq; simpl in *;
        try (destruct (decide (ptr hs = refcount hs)) as [Heq|Hne];
             [rewrite Heq in *|]);
        simplify_map_eq; try apply Hrange.
    + rewrite (cleanup_keeps _ hs n) in Hrun by done. simplify_eq.
      revert Hv. unfold counter. simplify_map_eq. intros [= <-]. apply Hrange.
Qed.

Lemma counter_wraps_mod_2_32_witness :
  (∃ s', shared_ptr_copy 2000 1000 (st_group UINT32_MAX) = Some (tt, s')
         ∧ counter 1000 s' = Some 0)
  ∧ (∃ s', shared_ptr_cleanup 1000 (st_group 0) = Some (tt, s')
           ∧ counter 1000 s' = Some UINT32_MAX
           ∧ trace s' = trace (st_group 0)).
Proof.
  split.
  - apply (counter_wraps_mod_2_32 2000 1000 (Shared_ptr 1 2 3)
             (Shared_ptr 32 64 7) (st_group UINT32_MAX));
      reflexivity.
  - apply (counter_wraps_mod_2_32 2000 1000 (Shared_ptr 1 2 3)
             (Shared_ptr 32 64 7) (st_group 0));
      reflexivity.
Defined.

(** ** Sequences on one group *)

Lemma run_cons o ops s :
  run (o :: ops) s
  = match run_op o s with
    | Some (_, s1) => run ops s1
    | None => None
    end.
Proof. reflexivity. Qed.

Lemma run_app ops1 ops2 s s1 :
  run ops1 s = Some (tt, s1) → run (ops1 ++ ops2) s = run ops2 s1.
Proof.
  revert s. induction ops1 as [|o ops1 IH]; intros s Hrun.
  - by injection Hrun as ->.
  - simpl app. rewrite run_cons in *.
    destruct (run_op o s) as [[[] s0]|]; [by apply IH|done].
Qed.

Lemma peak_ge live ops : (size live ≤ peak live ops)%nat.
Proof. destruct ops as [|o ops]; simpl; [done|]. case_match; lia. Qed.

Lemma track_empty ops live' : track ∅ ops = Some live' → ops = [] ∧ live' = ∅.
Proof.
  destruct ops as [|[this that|this] ops]; simpl.
  - by intros [= <-].
  - case_decide as H; [|done]. destruct H as [H _]. set_solver.
  - case_decide as H; [|done]. set_solver.
Qed.

Lemma size_live_pos (live : gset Z) : live ≠ ∅ → (1 ≤ size live)%nat.
Proof.
  intros Hne. destruct (size live) eqn:Hsz; [|lia].
  by apply size_empty_inv, leibniz_equiv in Hsz.
Qed.

Lemma last_handle (live : gset Z) this :
  this ∈ live → live ∖ {[this]} = ∅ → live = {[this]}.
Proof.
  intros Hthis Hrest. apply set_eq. intros x.
  rewrite elem_of_singleton. split; [|by intros ->].
  intros Hx. destruct (decide (x = this)) as [|Hne]; [done|].
  assert (Hin : x ∈ live ∖ {[this]}) by set_solver.
  rewrite Hrest in Hin. by apply not_elem_of_empty in Hin.
Qed.

Lemma declared_step s s1 ops :
  (∀ a, ptr_destructor <$> objs s1 !! a = ptr_destructor <$> objs s !! a) →
  declared s ops → declared s1 ops.
Proof.
  intros Hsame Hdecl. unfold declared in *.
  eapply Forall_impl; [exact Hdecl|]. intros o Ho. simpl in *.
  apply (fmap_is_Some ptr_destructor). rewrite Hsame.
  by apply fmap_is_Some.
Qed.

(** A copy inside a group. *)
Lemma group_share rc p live s this that :
  group rc p live s → that ∈ live → this ∉ live →
  is_Some (objs s !! this) →
  Z.of_nat (size live) < UINT32_MAX →
  ∃ s1, shared_ptr_copy this that s = Some (tt, s1)
        ∧ group rc p ({[this]} ∪ live) s1
        ∧ trace s1 = trace s
        ∧ (∀ a, ptr_destructor <$> objs s1 !! a
                = ptr_destructor <$> objs s !! a).
Proof.
  intros (Hrc & Hlive & Hcell & Hp) Hthat Hthis [hd Hhd] Hbound.
  destruct (Hlive that Hthat) as (hs & Hhs & <- & <-).
  eexists. split; [by eapply copy_runs|]. unfold group. simpl.
  split; [|split; [done|]].
  - split; [done|]. split; [|split].
    + intros a Ha. destruct (decide (a = this)) as [->|Hne].
      * eexists. by rewrite lookup_insert_eq.
      * rewrite lookup_insert_ne by done. apply Hlive. set_solver.
    + rewrite lookup_insert_eq. do 2 f_equal.
      rewrite size_union, size_singleton by set_solver.
      unfold u32, UINT32_MAX in *. rewrite Z.mod_small; lia.
    + destruct Hp as [Hp|[Hne Hsome]]; [by left|right].
      split; [done|]. by rewrite lookup_insert_ne.
  - intros a. destruct (decide (a = this)) as [->|Hne].
    + by rewrite lookup_insert_eq, Hhd.
    + by rewrite lookup_insert_ne.
Qed.

(** A cleanup that is not the last of its group. *)
Lemma group_release rc p live s this :
  group rc p live s → this ∈ live → live ∖ {[this]} ≠ ∅ →
  Z.of_nat (size live) ≤ UINT32_MAX →
  ∃ s1, shared_ptr_cleanup this s = Some (tt, s1)
        ∧ group rc p (live ∖ {[this]}) s1
        ∧ trace s1 = trace s
        ∧ objs s1 = objs s.
Proof.
  intros (Hrc & Hlive & Hcell & Hp) Hthis Hrest Hbound.
  destruct (Hlive this Hthis) as (h & Hh & <- & <-).
  assert (Hsz : size live = S (size (live ∖ {[this]}))).
  { rewrite size_difference, size_singleton by set_solver.
    assert (Hne : live ≠ ∅) by set_solver.
    apply size_live_pos in Hne. lia. }
  pose proof (size_live_pos _ Hrest) as Hpos.
  assert (Hsmall : u32 (Z.of_nat (size live) - 1)
                   = Z.of_nat (size (live ∖ {[this]}))).
  { unfold u32, UINT32_MAX in *. rewrite Z.mod_small; lia. }
  eexists. split.
  { eapply cleanup_keeps; [done..|]. lia. }
  unfold group. simpl. split; [|done].
  split; [done|]. split; [|split].
  - intros a Ha. apply Hlive. set_solver.
  - by rewrite lookup_insert_eq, Hsmall.
  - destruct Hp as [Hp|[Hne Hsome]]; [by left|right].
    split; [done|]. by rewrite lookup_insert_ne.
Qed.

(** The cleanup of the last handle of a group. *)
Lemma group_release_last rc p live s this :
  group rc p live s → this ∈ live → live ∖ {[this]} = ∅ →
  ∃ s1 h, shared_ptr_cleanup this s = Some (tt, s1)
        ∧ objs s !! this = Some h ∧ refcount h = rc ∧ ptr h = p
        ∧ trace s1 = trace s ++ teardown h
        ∧ heap s1 = heap_free p (delete rc (heap s))
        ∧ heap s1 !! rc = None
        ∧ objs s1 = objs s.
Proof.
  intros (Hrc & Hlive & Hcell & Hp) Hthis Hrest.
  destruct (Hlive this Hthis) as (h & Hh & <- & <-).
  assert (Hsz : size live = 1%nat).
  { rewrite (last_handle live this) by done. apply size_singleton. }
  rewrite Hsz in Hcell.
  eexists _, h. split; [by eapply cleanup_frees|]. simpl.
  repeat split; try done.
  unfold heap_free. case_decide; [by rewrite lookup_delete_eq|].
  destruct Hp as [?|[Hne _]]; [done|].
  by rewrite lookup_delete_ne, lookup_delete_eq.
Qed.

(** Any disciplined sequence on a group runs. While a handle is live the
    group stands, with nothing freed and nothing called; the release of
    the last handle tears the group down, with that handle's own fields.
    No operation writes a destructor field. *)
Lemma run_group rc p ops : ∀ live s live',
  live ≠ ∅ → group rc p live s → declared s ops →
  track live ops = Some live' →
  Z.of_nat (peak live ops) ≤ UINT32_MAX →
  ∃ s', run ops s = Some (tt, s')
    ∧ (∀ a, ptr_destructor <$> objs s' !! a = ptr_destructor <$> objs s !! a)
    ∧ (live' ≠ ∅ → group rc p live' s' ∧ trace s' = trace s)
    ∧ (live' = ∅ →
       ∃ a h, last ops = Some (Release a) ∧ objs s' !! a = Some h
              ∧ refcount h = rc ∧ ptr h = p
              ∧ trace s' = trace s ++ teardown h
              ∧ heap s' !! rc = None).
Proof.
  induction ops as [|o ops IH]; intros live s live' Hne Hgrp Hdecl Htrack Hpeak.
  - injection Htrack as <-. exists s.
    split; [done|]. split; [done|]. split; [done|]. by intros ?.
  - simpl in Htrack, Hpeak. rewrite run_cons.
    destruct (follow live o) as [live1|] eqn:Hfollow; [|done].
    pose proof (peak_ge live1 ops) as Hge.
    apply Forall_cons in Hdecl as [Ho Hdecl].
    destruct o as [this that|this]; simpl in Hfollow, Ho |- *.
    + case_decide as Hd; [|done]. destruct Hd as [Hthat Hthis].
      injection Hfollow as <-.
      assert (Hsz : size ({[this]} ∪ live) = S (size live)).
      { rewrite size_union, size_singleton by set_solver. done. }
      destruct (group_share rc p live s this that) as (s1 & -> & Hg1 & Ht1 & Hd1);
        [done..|lia|].
      destruct (IH ({[this]} ∪ live) s1 live') as (s' & Hrun & Hd' & Hlive & Hdead);
        [set_solver|done|by eapply declared_step|done|lia|].
      exists s'. split; [done|]. split; [|split].
      * intros a. by rewrite Hd', Hd1.
      * intros Hl. destruct (Hlive Hl) as [? ->]. done.
      * intros Hl. destruct (Hdead Hl) as (a & h & Hlast & ? & ? & ? & Htr & ?).
        exists a, h. rewrite last_cons, Hlast, Htr, Ht1. done.
    + case_decide as Hthis; [|done]. injection Hfollow as <-.
      destruct (decide (live ∖ {[this]} = ∅)) as [Hlast|Hrest].
      * rewrite Hlast in Htrack. apply track_empty in Htrack as [-> ->].
        destruct (group_release_last rc p live s this)
          as (s1 & h & -> & Hh & ? & ? & Htr & _ & Hfree & Hobjs); [done..|].
        exists s1. split; [done|]. split; [by rewrite Hobjs|].
        split; [done|]. intros _. exists this, h. by rewrite Hobjs.
      * destruct (group_release rc p live s this)
          as (s1 & -> & Hg1 & Ht1 & Hobjs); [done..|lia|].
        destruct (IH (live ∖ {[this]}) s1 live')
          as (s' & Hrun & Hd' & Hlive & Hdead);
          [done|done| |done|lia|].
        { eapply declared_step; [|done]. by rewrite Hobjs. }
        exists s'. split; [done|]. split; [|split].
        -- intros a. by rewrite Hd', Hobjs.
        -- intros Hl. destruct (Hlive Hl) as [? ->]. done.
        -- intros Hl. destruct (Hdead Hl) as (a & h & Hl' & ? & ? & ? & Htr & ?).
           exists a, h. rewrite last_cons, Hl', Htr, Ht1. done.
Qed.

(** The memory a successful constructor call leaves is a group of one. *)
Lemma init_group m this p d s0 s1 :
  shared_ptr_init m this p d s0 = Some (true, s1) →
  p = NULL ∨ is_Some (heap s0 !! p) →
  group m p {[this]} s1
  ∧ objs s1 = <[this := Shared_ptr m p d]> (objs s0)
  ∧ trace s1 = trace s0 ++ [EvMalloc sizeof_uint32_t m].
Proof.
  intros Hinit Hp.
  destruct (init_inv _ _ _ _ _ _ _ Hinit) as (h & Hthis & [[_ ?]|(Hm & Hfresh & _)]);
    [done|].
  rewrite (init_succeeds _ _ _ _ h) in Hinit by done.
  injection Hinit as <-. unfold group. cbn [objs heap trace]. split; [|done].
  split; [done|]. split; [|split].
  - intros a ->%elem_of_singleton. eexists. by rewrite lookup_insert_eq.
  - by rewrite lookup_insert_eq, size_singleton.
  - destruct Hp as [Hp|[b Hb]]; [by left|right].
    assert (p ≠ m) by congruence.
    split; [done|]. by rewrite lookup_insert_ne.
Qed.

Lemma declared_init s0 s1 this h ops :
  objs s1 = <[this := h]> (objs s0) → declared s0 ops → declared s1 ops.
Proof.
  intros Hobjs Hdecl. unfold declared in *.
  eapply Forall_impl; [exact Hdecl|]. intros o Ho. simpl in *.
  rewrite Hobjs. apply lookup_insert_is_Some.
  destruct (decide (this = operand o)); auto.
Qed.

(** C5, amended. After a successful constructor call, along any sequence
    of copies into new variables and of cleanups, at most one per live
    handle, run one after the other, and as long as no more than 2^32 - 1
    handles are live at once: every operation returns, and the counter that
    each live handle refers to holds the number of live handles, which is
    not negative. Once no handle is left the counter cell is not live any
    more. *)
Theorem counter_counts_live_handles m this p d s0 s1 ops live :
  shared_ptr_init m this p d s0 = Some (true, s1) →
  p = NULL ∨ is_Some (heap s0 !! p) →
  declared s0 ops →
  track {[this]} ops = Some live →
  Z.of_nat (peak {[this]} ops) ≤ UINT32_MAX →
  ∃ s2, run ops s1 = Some (tt, s2)
        ∧ (∀ a, a ∈ live →
                counter a s2 = Some (Z.of_nat (size live))
                ∧ 0 ≤ Z.of_nat (size live))
        ∧ (live = ∅ → heap s2 !! m = None).
Proof.
  intros Hinit Hp Hdecl Htrack Hpeak.
  destruct (init_group _ _ _ _ _ _ Hinit Hp) as (Hgrp & Hobjs & _).
  destruct (run_group m p ops {[this]} s1 live)
    as (s2 & Hrun & _ & Hlive & Hdead);
    [set_solver|done|by eapply declared_init|done|done|].
  exists s2. split; [done|]. split.
  - intros a Ha. split; [|lia].
    destruct Hlive as [(_ & Hh & Hcell & _) _]; [set_solver|].
    destruct (Hh a Ha) as (h & Hobj & Hrc & _).
    unfold counter. by rewrite Hobj, Hrc, Hcell.
  - intros Hl. by destruct (Hdead Hl) as (? & ? & _ & _ & _ & _ & _ & ?).
Qed.

Lemma counter_counts_live_handles_witness :
  ∃ s2, run [Share 2000 1000; Release 1000] st_built = Some (tt, s2)
        ∧ (∀ a, a ∈ ({[2000]} : gset Z) →
                counter a s2 = Some (Z.of_nat (size ({[2000]} : gset Z)))
                ∧ 0 ≤ Z.of_nat (size ({[2000]} : gset Z)))
        ∧ (({[2000]} : gset Z) = ∅ → heap s2 !! 32 = None).
Proof.
  apply (counter_counts_live_handles 32 1000 64 7 st_fresh st_built
           [Share 2000 1000; Release 1000] {[2000]}).
  - vm_compute. reflexivity.
  - right. by eexists.
  - repeat constructor; by eexists.
  - vm_compute. reflexivity.
  - by vm_compute.
Defined.

(** Which handle releases last decides the destructor: under the same
    discipline, when the sequence ends with no handle live, nothing is
    freed or called before its last operation, a cleanup, and that
    cleanup uses the destructor field of its own variable: the
    constructor's argument for the constructed handle, and for a copy
    whatever the variable held before it was copied into. *)
Theorem finalizer_decided_by_last_handle m this p d s0 s1 ops :
  shared_ptr_init m this p d s0 = Some (true, s1) →
  p = NULL ∨ is_Some (heap s0 !! p) →
  declared s0 ops →
  track {[this]} ops = Some ∅ →
  Z.of_nat (peak {[this]} ops) ≤ UINT32_MAX →
  ∃ s2 a h, run ops s1 = Some (tt, s2)
        ∧ last ops = Some (Release a)
        ∧ objs s2 !! a = Some h
        ∧ trace s2 = trace s1 ++ teardown h
        ∧ (a = this → ptr_destructor h = d)
        ∧ (a ≠ this → Some (ptr_destructor h)
                      = ptr_destructor <$> objs s0 !! a)
        ∧ finalizer_runs (teardown h)
          = if decide (ptr_destructor h = NULL) then 0%nat else 1%nat.
Proof.
  intros Hinit Hp Hdecl Htrack Hpeak.
  destruct (init_group _ _ _ _ _ _ Hinit Hp) as (Hgrp & Hobjs & _).
  destruct (run_group m p ops {[this]} s1 ∅)
    as (s2 & Hrun & Hdtor & _ & Hdead);
    [set_solver|done|by eapply declared_init|done|done|].
  destruct Hdead as (a & h & Hlast & Hh & _ & _ & Htr & _); [done|].
  exists s2, a, h. do 4 (split; [done|]).
  pose proof (Hdtor a) as Ha. rewrite Hh, Hobjs in Ha. simpl in Ha.
  split; [|split].
  - intros ->. rewrite lookup_insert_eq in Ha. by injection Ha.
  - intros Hne. by rewrite lookup_insert_ne in Ha.
  - unfold teardown, finalizer_runs. by case_decide.
Qed.

Lemma finalizer_decided_by_last_handle_witness :
  ∃ s2 a h, run [Share 2000 1000; Release 2000; Release 1000] st_built
            = Some (tt, s2)
        ∧ last [Share 2000 1000; Release 2000; Release 1000]
          = Some (Release a)
        ∧ objs s2 !! a = Some h
        ∧ trace s2 = trace st_built ++ teardown h
        ∧ (a = 1000 → ptr_destructor h = 7)
        ∧ (a ≠ 1000 → Some (ptr_destructor h)
                      = ptr_destructor <$> objs st_fresh !! a)
        ∧ finalizer_runs (teardown h)
          = if decide (ptr_destructor h = NULL) then 0%nat else 1%nat.
Proof.
  apply (finalizer_decided_by_last_handle 32 1000 64 7 st_fresh st_built
           [Share 2000 1000; Release 2000; Release 1000]).
  - vm_compute. reflexivity.
  - right. by eexists.
  - repeat constructor; by eexists.
  - vm_compute. reflexivity.
  - by vm_compute.
Defined.

(** C1 at its failing input. A handle is constructed at 1000 with
    destructor 7, copied into the zeroed variable at 2000, and the
    original is cleaned up before the copy: one share, two releases. The
    last release frees the counter cell and the payload, and the
    destructor never runs. *)
Theorem finalizer_lost_when_copy_is_last :
  ∃ s1 s2,
    shared_ptr_init 32 1000 64 7 st_fresh = Some (true, s1)
    ∧ run [Share 2000 1000; Release 1000; Release 2000] s1 = Some (tt, s2)
    ∧ trace s2 = [EvMalloc sizeof_uint32_t 32; EvFree 32; EvFree 64]
    ∧ finalizer_runs (trace s2) = 0%nat.
Proof.
  eexists _, _. split; [vm_compute; reflexivity|].
  split; [vm_compute; reflexivity|]. split; reflexivity.
Qed.

(** The same group released in scope order, the copy first: the
    destructor runs once, on the last release. *)
Example finalizer_runs_when_original_is_last :
  ∃ s2, run [Share 2000 1000; Release 2000; Release 1000] st_built
        = Some (tt, s2)
    ∧ trace s2 = [EvMalloc sizeof_uint32_t 32; EvFree 32; EvCall 7 64;
                  EvFree 64]
    ∧ finalizer_runs (trace s2) = 1%nat.
Proof.
  eexists. split; [vm_compute; reflexivity|]. split; reflexivity.
Qed.

(** ** A group with 2^32 handles *)

Lemma slot_inj i j : slot i = slot j → i = j.
Proof. unfold slot. lia. Qed.

Lemma st_many_slot n j :
  0 ≤ j < n → objs (st_many n) !! slot j = Some (Shared_ptr 0 0 0).
Proof.
  intros Hj. unfold st_many. cbn [objs].
  apply lookup_gset_to_gmap_Some. split; [|done].
  apply elem_of_list_to_set, list_elem_of_fmap. exists j.
  split; [done|]. apply elem_of_seqZ. lia.
Qed.

(** [k] copies of one handle, into [k] variables that exist, add [k] to
    the counter modulo 2^32 and call nothing. *)
Lemma run_shares rc p d base : ∀ k i s v,
  objs s !! base = Some (Shared_ptr rc p d) →
  heap s !! rc = Some (U32 v) → 0 ≤ v ≤ UINT32_MAX → 0 ≤ i →
  (∀ j, i ≤ j < i + Z.of_nat k → is_Some (objs s !! slot j)) →
  (∀ j, i ≤ j → slot j ≠ base) →
  ∃ s', run (shares_from base i k) s = Some (tt, s')
        ∧ objs s' !! base = Some (Shared_ptr rc p d)
        ∧ heap s' !! rc = Some (U32 (u32 (v + Z.of_nat k)))
        ∧ (∀ j, is_Some (objs s !! j) → is_Some (objs s' !! j))
        ∧ trace s' = trace s.
Proof.
  induction k as [|k IH]; intros i s v Hbase Hcell Hv Hi Hslots Hfar.
  - exists s. split; [done|]. split; [done|]. split; [|done].
    rewrite Hcell. do 2 f_equal. unfold u32, UINT32_MAX in *.
    rewrite Z.add_0_r, Z.mod_small; lia.
  - cbn [shares_from]. rewrite run_cons. cbn [run_op].
    destruct (Hslots i) as [hd Hhd]; [lia|].
    rewrite (copy_runs _ _ hd (Shared_ptr rc p d) v) by done.
    cbn [refcount ptr].
    match goal with |- context [run _ ?st] => set (s1 := st) end.
    destruct (IH (i + 1) s1 (u32 (v + 1))) as (s' & Hrun & Hb & Hc & Hdom & Htr);
      subst s1.
    + cbn [objs]. rewrite lookup_insert_ne; [done|]. apply Hfar. lia.
    + cbn [heap]. apply lookup_insert_eq.
    + unfold u32, UINT32_MAX.
      pose proof (Z.mod_pos_bound (v + 1) 4294967296). lia.
    + lia.
    + intros j Hj. cbn [objs]. apply lookup_insert_is_Some'. right.
      apply Hslots. lia.
    + intros j Hj. apply Hfar. lia.
    + exists s'. split; [done|]. split; [done|]. split; [|split; [|done]].
      * rewrite Hc. do 2 f_equal. unfold u32.
        rewrite Zplus_mod_idemp_l. f_equal. lia.
      * intros j Hj. apply Hdom. cbn [objs].
        apply lookup_insert_is_Some'. by right.
Qed.

(** They follow the discipline and make [k] more handles live. *)
Lemma track_shares base : ∀ k i live,
  base ∈ live → (∀ j, i ≤ j → slot j ∉ live) →
  ∃ live', track live (shares_from base i k) = Some live'
           ∧ size live' = (size live + k)%nat
           ∧ base ∈ live'.
Proof.
  induction k as [|k IH]; intros i live Hbase Hfar.
  - exists live. split; [done|]. split; [lia|done].
  - cbn [shares_from track follow].
    rewrite decide_True by (split; [done|apply Hfar; lia]).
    destruct (IH (i + 1) ({[slot i]} ∪ live)) as (live' & Htr & Hsz & Hin).
    + set_solver.
    + intros j Hj. apply not_elem_of_union. split; [|apply Hfar; lia].
      intros Heq%elem_of_singleton%slot_inj. lia.
    + exists live'. split; [done|]. split; [|done].
      rewrite Hsz, size_union, size_singleton; [lia|].
      apply disjoint_singleton_l, Hfar. lia.
Qed.

(** The constructor on the first of [n] variables, then [k] copies of it
    into the next ones. *)
Lemma built_then_shared n k :
  Z.of_nat k < n →
  ∃ s1 s2 live,
    shared_ptr_init 32 (slot 0) 64 7 (st_many n) = Some (true, s1)
    ∧ run (shares_from (slot 0) 1 k) s1 = Some (tt, s2)
    ∧ track {[slot 0]} (shares_from (slot 0) 1 k) = Some live
    ∧ slot 0 ∈ live
    ∧ Z.of_nat (size live) = 1 + Z.of_nat k
    ∧ counter (slot 0) s2 = Some (u32 (1 + Z.of_nat k))
    ∧ objs s2 !! slot 0 = Some (Shared_ptr 32 64 7)
    ∧ (∀ j, 0 ≤ j < n → is_Some (objs s2 !! slot j)).
Proof.
  intros Hk.
  pose proof (init_succeeds 32 (slot 0) 64 7 (Shared_ptr 0 0 0) (st_many n))
    as Hinit.
  rewrite Hinit; [|apply st_many_slot; lia|done|done]. clear Hinit.
  match goal with |- context [Some (true, ?st)] => set (s1 := st) end.
  exists s1.
  destruct (run_shares 32 64 7 (slot 0) k 1 s1 1)
    as (s2 & Hrun & Hb & Hc & Hdom & _); subst s1; [| | | | | |exists s2].
  - cbn [objs]. apply lookup_insert_eq.
  - cbn [heap]. apply lookup_insert_eq.
  - by vm_compute.
  - lia.
  - intros j Hj. cbn [objs]. apply lookup_insert_is_Some'. right.
    rewrite st_many_slot; [done|lia].
  - intros j Hj Heq%slot_inj. lia.
  - destruct (track_shares (slot 0) k 1 {[slot 0]}) as (live & Htr & Hsz & Hin).
    + set_solver.
    + intros j Hj Heq%elem_of_singleton%slot_inj. lia.
    + exists live. split; [done|]. split; [done|]. split; [done|].
      split; [done|]. split; [rewrite Hsz, size_singleton; lia|].
      split; [unfold counter; rewrite Hb; cbn [refcount]; by rewrite Hc|].
      split; [done|].
      intros j Hj. apply Hdom. cbn [objs]. apply lookup_insert_is_Some'.
      right. rewrite st_many_slot; [done|lia].
Qed.

(** C6, as stated, fails at the top of the counter's range. With 2^32
    handle variables, a handle is constructed in the first and copied
    into the next 2^32 - 2: the group is live and its counter holds
    2^32 - 1. One more copy returns and leaves the counter at 0: it did
    not increase by 1. *)
Lemma copy_at_max_wraps_to_zero :
  ∃ s1 s2 s3,
    shared_ptr_init 32 (slot 0) 64 7 (st_many 4294967296) = Some (true, s1)
    ∧ run (shares_from (slot 0) 1 (Z.to_nat 4294967294)) s1 = Some (tt, s2)
    ∧ counter (slot 0) s2 = Some UINT32_MAX
    ∧ shared_ptr_copy (slot 4294967295) (slot 0) s2 = Some (tt, s3)
    ∧ counter (slot 0) s3 = Some 0
    ∧ counter (slot 0) s3 ≠ Some (UINT32_MAX + 1).
Proof.
  assert (Hk : Z.of_nat (Z.to_nat 4294967294) = 4294967294)
    by (apply Z2Nat.id; lia).
  assert (Hlast : 0 ≤ 4294967295 < 4294967296) by lia.
  assert (Hfar : slot 4294967295 ≠ slot 0) by (intros Heq%slot_inj; lia).
  destruct (built_then_shared 4294967296 (Z.to_nat 4294967294))
    as (s1 & s2 & live & Hinit & Hrun & _ & _ & _ & Hc & Hobj & Hslots).
  { rewrite Hk. exact (proj2 Hlast). }
  rewrite Hk in Hc. clear Hk.
  change (u32 (1 + 4294967294)) with UINT32_MAX in Hc.
  destruct (Hslots 4294967295 Hlast) as [hd Hhd].
  assert (Hcell : heap s2 !! 32 = Some (U32 UINT32_MAX)).
  { revert Hc. unfold counter. rewrite Hobj. cbn [refcount].
    clear. destruct (heap s2 !! 32) as [[]|]; congruence. }
  exists s1, s2. eexists.
  split; [exact Hinit|]. split; [exact Hrun|]. split; [exact Hc|].
  split; [exact (copy_runs _ _ hd (Shared_ptr 32 64 7) UINT32_MAX _
                   Hhd Hobj Hcell)|].
  assert (Hzero : counter (slot 0)
    {| objs := <[slot 4294967295 := Shared_ptr 32 64 (ptr_destructor hd)]>
                 (objs s2);
       heap := <[32 := U32 (u32 (UINT32_MAX + 1))]> (heap s2);
       trace := trace s2 |} = Some 0).
  { unfold counter. cbn [objs heap].
    rewrite lookup_insert_ne by exact Hfar.
    rewrite Hobj. cbn [refcount]. rewrite lookup_insert_eq. reflexivity. }
  split; [exact Hzero|]. cbn [refcount ptr]. rewrite Hzero.
  clear. discriminate.
Qed.

(** C5, as stated, fails once 2^32 handles are live. A handle is
    constructed and copied 2^32 - 1 times into new variables, with no
    release: the sequence follows the discipline and returns, 2^32
    handles are live, and the counter they share holds 0. *)
Lemma counter_loses_count_at_2_32 :
  ∃ s1 s2 live,
    shared_ptr_init 32 (slot 0) 64 7 (st_many 4294967296) = Some (true, s1)
    ∧ track {[slot 0]} (shares_from (slot 0) 1 (Z.to_nat 4294967295))
      = Some live
    ∧ run (shares_from (slot 0) 1 (Z.to_nat 4294967295)) s1 = Some (tt, s2)
    ∧ slot 0 ∈ live
    ∧ Z.of_nat (size live) = 4294967296
    ∧ counter (slot 0) s2 = Some 0
    ∧ counter (slot 0) s2 ≠ Some (Z.of_nat (size live)).
Proof.
  assert (Hk : Z.of_nat (Z.to_nat 4294967295) = 4294967295)
    by (apply Z2Nat.id; lia).
  assert (Hlt : 4294967295 < 4294967296) by lia.
  destruct (built_then_shared 4294967296 (Z.to_nat 4294967295))
    as (s1 & s2 & live & Hinit & Hrun & Htrack & Hin & Hsz & Hc & _).
  { rewrite Hk. exact Hlt. }
  rewrite Hk in Hsz, Hc. clear Hk.
  change (u32 (1 + 4294967295)) with 0 in Hc.
  change (1 + 4294967295) with 4294967296 in Hsz.
  exists s1, s2, live. rewrite Hc, Hsz.
  split; [exact Hinit|]. split; [exact Htrack|]. split; [exact Hrun|].
  split; [exact Hin|]. split; [reflexivity|]. split; [reflexivity|].
  clear. discriminate.
Qed.

(** ** When the functions have defined behaviour *)

(** Closes a goal whose hypothesis [H] says that an undefined run
    returned. *)
Ltac undefined_run H :=
  solve [revert H; exec; try (by intros [])].

Lemma copy_defined this that s :
  is_Some (shared_ptr_copy this that s)
  ↔ is_Some (objs s !! this)
    ∧ ∃ hs n, objs s !! that = Some hs
              ∧ heap s !! refcount hs = Some (U32 n).
Proof.
  split.
  - intros Hrun.
    destruct (objs s !! that) as [hs|] eqn:Hthat;
      [|undefined_run Hrun].
    destruct (objs s !! this) as [hd|] eqn:Hthis;
      [|undefined_run Hrun].
    split; [done|]. exists hs.
    destruct (heap s !! refcount hs) as [[|n|]|] eqn:Hcell;
      try (destruct (decide (this = that)) as [->|Hne]; undefined_run Hrun).
    by exists n.
  - intros [[hd Hthis] (hs & n & Hthat & Hcell)].
    rewrite (copy_runs _ _ hd hs n) by done. done.
Qed.

Lemma cleanup_defined this s :
  is_Some (shared_ptr_cleanup this s)
  ↔ ∃ h n, objs s !! this = Some h
           ∧ heap s !! refcount h = Some (U32 n)
           ∧ (u32 (n - 1) = 0 →
              ptr h = NULL
              ∨ ptr h ≠ refcount h ∧ is_Some (heap s !! ptr h)).
Proof.
  split.
  - intros Hrun.
    destruct (objs s !! this) as [h|] eqn:Hthis;
      [|undefined_run Hrun].
    destruct (heap s !! refcount h) as [[|n|]|] eqn:Hcell;
      try undefined_run Hrun.
    exists h, n. split; [done|]. split; [done|]. intros Hz.
    destruct (decide (ptr h = NULL)) as [|Hp]; [by left|right].
    destruct (decide (ptr h = refcount h)) as [Heq|Hne].
    + exfalso. revert Hrun. rewrite Heq in Hp.
      exec; try congruence; rewrite Heq, lookup_delete_eq; by intros [].
    + split; [done|]. revert Hrun. exec.
      all: destruct (heap s !! ptr h); [done|by intros []].
  - intros (h & n & Hthis & Hcell & Hp).
    destruct (decide (u32 (n - 1) = 0)) as [Hz|Hnz].
    + destruct (Hp Hz) as [Hnull|[Hne [b Hb]]]; exec.
    + rewrite (cleanup_keeps _ h n) by done. done.
Qed.

(** The copy constructor is defined exactly when both variables exist and
    the source's counter pointer designates a cell that holds a
    [uint32_t]: a source that was never constructed, whose construction
    failed ([refcount] null) or whose group is already freed makes the
    call undefined. *)
Theorem copy_defined_iff this that s :
  is_Some (shared_ptr_copy this that s)
  ↔ is_Some (objs s !! this)
    ∧ ∃ hs n, objs s !! that = Some hs
              ∧ heap s !! refcount hs = Some (U32 n).
Proof. apply copy_defined. Qed.


(** ** How the functions compose *)

(** A constructor call whose allocation failed leaves a handle that must
    not be used: with no block at the null address, the destructor on it
    and a copy from it are both undefined (they dereference the null
    counter pointer). *)
Theorem failed_init_handle_is_unusable this p d h s :
  objs s !! this = Some h → heap s !! NULL = None →
  ∃ s', shared_ptr_init NULL this p d s = Some (false, s')
        ∧ shared_ptr_cleanup this s' = None
        ∧ ∀ dst, shared_ptr_copy dst this s' = None.
Proof.
  intros Hthis Hnull. eexists. split; [by eapply init_fails|].
  split.
  - apply eq_None_not_Some. rewrite cleanup_defined.
    intros (h' & n & Hh' & Hcell & _). revert Hh' Hcell. simpl.
    rewrite lookup_insert_eq. intros [= <-]. simpl. by rewrite Hnull.
  - intros dst. apply eq_None_not_Some. rewrite copy_defined.
    intros (_ & hs & n & Hhs & Hcell). revert Hhs Hcell. simpl.
    rewrite lookup_insert_eq. intros [= <-]. simpl. by rewrite Hnull.
Qed.

Lemma failed_init_handle_is_unusable_witness :
  ∃ s', shared_ptr_init NULL 1000 64 7 st_fresh = Some (false, s')
        ∧ shared_ptr_cleanup 1000 s' = None
        ∧ ∀ dst, shared_ptr_copy dst 1000 s' = None.
Proof.
  apply (failed_init_handle_is_unusable 1000 64 7 (Shared_ptr 0 0 0) st_fresh);
    reflexivity.
Defined.

(** After the cleanup that freed a group, every handle that still points
    to its counter cell dangles: a second cleanup of the same variable, a
    cleanup of any other handle of the group, and a copy from one are all
    undefined. *)
Theorem released_group_is_unusable this h s :
  objs s !! this = Some h → heap s !! refcount h = Some (U32 1) →
  refcount h ≠ NULL →
  ptr h = NULL ∨ ptr h ≠ refcount h ∧ is_Some (heap s !! ptr h) →
  ∃ s', shared_ptr_cleanup this s = Some (tt, s')
        ∧ ∀ other h', objs s !! other = Some h' → refcount h' = refcount h →
            shared_ptr_cleanup other s' = None
            ∧ ∀ dst, shared_ptr_copy dst other s' = None.
Proof.
  intros Hthis Hcell Hrc Hp. eexists. split; [by eapply cleanup_frees|].
  assert (Hgone : heap_free (ptr h) (delete (refcount h) (heap s))
                  !! refcount h = None).
  { unfold heap_free. case_decide; [by rewrite lookup_delete_eq|].
    destruct Hp as [?|[Hne _]]; [done|].
    by rewrite lookup_delete_ne, lookup_delete_eq. }
  intros other h' Hother Heq. split.
  - apply eq_None_not_Some. rewrite cleanup_defined.
    intros (h2 & n & Hh2 & Hc & _). revert Hh2 Hc. simpl.
    rewrite Hother. intros [= <-]. by rewrite Heq, Hgone.
  - intros dst. apply eq_None_not_Some. rewrite copy_defined.
    intros (_ & h2 & n & Hh2 & Hc). revert Hh2 Hc. simpl.
    rewrite Hother. intros [= <-]. by rewrite Heq, Hgone.
Qed.

Lemma released_group_is_unusable_witness :
  ∃ s', shared_ptr_cleanup 1000 (st_group 1) = Some (tt, s')
        ∧ ∀ other h', objs (st_group 1) !! other = Some h' →
            refcount h' = refcount (Shared_ptr 32 64 7) →
            shared_ptr_cleanup other s' = None
            ∧ ∀ dst, shared_ptr_copy dst other s' = None.
Proof.
  apply (released_group_is_unusable 1000 (Shared_ptr 32 64 7) (st_group 1));
    [reflexivity | reflexivity | discriminate |].
  right. split; [discriminate|]. by eexists.
Defined.



(** Share, then release the copy: on a group whose counter holds [n] with
    [1 ≤ n < 2^32 - 1] the two calls cancel. The heap (the counter
    included) and the trace are what they were; only the copy's variable
    was written. *)
Theorem share_release_round_trip this that hd hs n s :
  objs s !! this = Some hd → objs s !! that = Some hs →
  heap s !! refcount hs = Some (U32 n) →
  1 ≤ n < UINT32_MAX →
  (shared_ptr_copy this that ;; shared_ptr_cleanup this) s
  = Some (tt, {| objs := <[this := Shared_ptr (refcount hs) (ptr hs)
                                     (ptr_destructor hd)]> (objs s);
                 heap := heap s;
                 trace := trace s |}).
Proof.
  intros Hthis Hthat Hcell Hn. unfold bind at 1.
  rewrite (copy_runs _ _ hd hs n) by done.
  assert (Hup : u32 (n + 1) = n + 1).
  { unfold u32, UINT32_MAX in *. apply Z.mod_small. lia. }
  assert (Hdown : u32 (n + 1 - 1) = n).
  { unfold u32, UINT32_MAX in *. rewrite Z.mod_small; lia. }
  rewrite Hup.
  rewrite (cleanup_keeps _ (Shared_ptr (refcount hs) (ptr hs)
                              (ptr_destructor hd)) (n + 1)); simpl.
  - rewrite Hdown, insert_insert_eq. by rewrite (insert_id (heap s)).
  - apply lookup_insert_eq.
  - apply lookup_insert_eq.
  - rewrite Hdown. lia.
Qed.

Lemma share_release_round_trip_witness :
  (shared_ptr_copy 2000 1000 ;; shared_ptr_cleanup 2000) (st_group 2)
  = Some (tt, {| objs := <[2000 := Shared_ptr 32 64 3]> (objs (st_group 2));
                 heap := heap (st_group 2);
                 trace := trace (st_group 2) |}).
Proof.
  apply (share_release_round_trip 2000 1000 (Shared_ptr 1 2 3)
           (Shared_ptr 32 64 7) 2 (st_group 2));
    [reflexivity | reflexivity | reflexivity | by vm_compute].
Defined.

(** Copying a handle onto itself leaves the handle as it is and still
    counts one more owner. *)
Theorem copy_onto_itself_counts this h n s :
  objs s !! this = Some h → heap s !! refcount h = Some (U32 n) →
  shared_ptr_copy this this s
  = Some (tt, {| objs := objs s;
                 heap := <[refcount h := U32 (u32 (n + 1))]> (heap s);
                 trace := trace s |}).
Proof.
  intros Hthis Hcell. rewrite (copy_runs _ _ h h n) by done.
  destruct h as [rc p d]. simpl. by rewrite insert_id.
Qed.

Lemma copy_onto_itself_counts_witness :
  shared_ptr_copy 1000 1000 (st_group 1)
  = Some (tt, {| objs := objs (st_group 1);
                 heap := <[32 := U32 (u32 (1 + 1))]> (heap (st_group 1));
                 trace := trace (st_group 1) |}).
Proof.
  apply (copy_onto_itself_counts 1000 (Shared_ptr 32 64 7) 1 (st_group 1));
    reflexivity.
Defined.

(** Writing over a live handle does not release it. When a variable that
    is a handle of a group is handed to the constructor, or made the
    destination of a copy from another group, the counter of the group it
    belonged to keeps its value and nothing is freed or called: that
    reference is lost. *)
Theorem overwriting_a_handle_does_not_release this h k s :
  objs s !! this = Some h → heap s !! refcount h = Some (U32 k) →
  (∀ m p d, m ≠ NULL → heap s !! m = None →
     ∃ s', shared_ptr_init m this p d s = Some (true, s')
           ∧ heap s' !! refcount h = Some (U32 k)
           ∧ trace s' = trace s ++ [EvMalloc sizeof_uint32_t m])
  ∧ (∀ that hs n, objs s !! that = Some hs →
       heap s !! refcount hs = Some (U32 n) → refcount hs ≠ refcount h →
       ∃ s', shared_ptr_copy this that s = Some (tt, s')
             ∧ heap s' !! refcount h = Some (U32 k)
             ∧ trace s' = trace s).
Proof.
  intros Hthis Hcell. split.
  - intros m p d Hm Hfresh. eexists. split; [by eapply init_succeeds|].
    simpl. split; [|done]. rewrite lookup_insert_ne; [done|congruence].
  - intros that hs n Hthat Hc Hne. eexists. split; [by eapply copy_runs|].
    simpl. split; [|done]. by rewrite lookup_insert_ne.
Qed.



Lemma overwriting_a_handle_does_not_release_witness :
  (∀ m p d, m ≠ NULL → heap (st_group 3) !! m = None →
     ∃ s', shared_ptr_init m 1000 p d (st_group 3) = Some (true, s')
           ∧ heap s' !! refcount (Shared_ptr 32 64 7) = Some (U32 3)
           ∧ trace s' = trace (st_group 3) ++ [EvMalloc sizeof_uint32_t m])
  ∧ (∀ that hs n, objs (st_group 3) !! that = Some hs →
       heap (st_group 3) !! refcount hs = Some (U32 n) →
       refcount hs ≠ refcount (Shared_ptr 32 64 7) →
       ∃ s', shared_ptr_copy 1000 that (st_group 3) = Some (tt, s')
             ∧ heap s' !! refcount (Shared_ptr 32 64 7) = Some (U32 3)
             ∧ trace s' = trace (st_group 3)).
Proof.
  apply (overwriting_a_handle_does_not_release 1000 (Shared_ptr 32 64 7) 3
           (st_group 3)); reflexivity.
Defined.

(** ** The whole life of a group *)

Lemma group_share_heap rc p live s this that s1 :
  group rc p live s → that ∈ live →
  shared_ptr_copy this that s = Some (tt, s1) →
  ∀ a, a ≠ rc → heap s1 !! a = heap s !! a.
Proof.
  intros (_ & Hlive & Hcell & _) Hthat Hrun a Ha.
  destruct (Hlive that Hthat) as (hs & Hhs & <- & _).
  destruct (proj1 (copy_defined this that s)) as [[hd Hhd] _];
    [by rewrite Hrun|].
  rewrite (copy_runs _ _ hd hs _ _ Hhd Hhs Hcell) in Hrun.
  injection Hrun as <-. simpl. by rewrite lookup_insert_ne.
Qed.

Lemma group_release_heap rc p live s this s1 :
  group rc p live s → this ∈ live → live ∖ {[this]} ≠ ∅ →
  Z.of_nat (size live) ≤ UINT32_MAX →
  shared_ptr_cleanup this s = Some (tt, s1) →
  ∀ a, a ≠ rc → heap s1 !! a = heap s !! a.
Proof.
  intros (_ & Hlive & Hcell & _) Hthis Hrest Hbound Hrun a Ha.
  destruct (Hlive this Hthis) as (h & Hh & <- & _).
  assert (Hsz : size live = S (size (live ∖ {[this]}))).
  { rewrite size_difference, size_singleton by set_solver.
    assert (Hne : live ≠ ∅) by set_solver.
    apply size_live_pos in Hne. lia. }
  pose proof (size_live_pos _ Hrest) as Hpos.
  rewrite (cleanup_keeps _ h _ _ Hh Hcell) in Hrun.
  - injection Hrun as <-. simpl. by rewrite lookup_insert_ne.
  - unfold u32, UINT32_MAX in *. rewrite Z.mod_small; lia.
Qed.

(** Along a disciplined sequence on a group the heap changes at the
    counter cell only, until the last release gives back the counter cell
    and the payload. *)
Lemma run_group_heap rc p ops : ∀ live s live' s',
  live ≠ ∅ → group rc p live s → declared s ops →
  track live ops = Some live' →
  Z.of_nat (peak live ops) ≤ UINT32_MAX →
  run ops s = Some (tt, s') →
  (live' ≠ ∅ → ∀ a, a ≠ rc → heap s' !! a = heap s !! a)
  ∧ (live' = ∅ → heap s' = heap_free p (delete rc (heap s))).
Proof.
  induction ops as [|o ops IH];
    intros live s live' s' Hne Hgrp Hdecl Htrack Hpeak Hrun.
  - injection Htrack as <-. injection Hrun as <-. by split.
  - simpl in Htrack, Hpeak. rewrite run_cons in Hrun.
    destruct (follow live o) as [live1|] eqn:Hfollow; [|done].
    pose proof (peak_ge live1 ops) as Hge.
    apply Forall_cons in Hdecl as [Ho Hdecl].
    destruct o as [this that|this]; simpl in Hfollow, Ho, Hrun.
    + case_decide as Hd; [|done]. destruct Hd as [Hthat Hthis].
      injection Hfollow as <-.
      assert (Hsz : size ({[this]} ∪ live) = S (size live)).
      { rewrite size_union, size_singleton by set_solver. done. }
      destruct (group_share rc p live s this that)
        as (s1 & Hstep & Hg1 & _ & Hd1); [done..|lia|].
      rewrite Hstep in Hrun.
      pose proof (group_share_heap _ _ _ _ _ _ _ Hgrp Hthat Hstep) as Hh1.
      destruct (IH ({[this]} ∪ live) s1 live' s') as [Hlive Hdead];
        [set_solver|done|by eapply declared_step|done|lia|done|].
      split.
      * intros Hl a Ha. by rewrite Hlive, Hh1.
      * intros Hl. rewrite (Hdead Hl). f_equal. apply map_eq. intros a.
        destruct (decide (a = rc)) as [->|Ha].
        -- by rewrite !lookup_delete_eq.
        -- rewrite !lookup_delete_ne by done. by apply Hh1.
    + case_decide as Hthis; [|done]. injection Hfollow as <-.
      destruct (decide (live ∖ {[this]} = ∅)) as [Hlast|Hrest].
      * rewrite Hlast in Htrack. apply track_empty in Htrack as [-> ->].
        destruct (group_release_last rc p live s this)
          as (s1 & h & Hstep & _ & _ & _ & _ & Hheap & _); [done..|].
        rewrite Hstep in Hrun. injection Hrun as <-. by split.
      * destruct (group_release rc p live s this)
          as (s1 & Hstep & Hg1 & _ & Hobjs); [done..|lia|].
        rewrite Hstep in Hrun.
        assert (Hh1 : ∀ a, a ≠ rc → heap s1 !! a = heap s !! a).
        { eapply group_release_heap; [done..|lia|done]. }
        destruct (IH (live ∖ {[this]}) s1 live' s') as [Hlive Hdead];
          [done|done| |done|lia|done|].
        { eapply declared_step; [|done]. by rewrite Hobjs. }
        split.
        -- intros Hl a Ha. by rewrite Hlive, Hh1.
        -- intros Hl. rewrite (Hdead Hl). f_equal. apply map_eq. intros a.
           destruct (decide (a = rc)) as [->|Ha].
           ++ by rewrite !lookup_delete_eq.
           ++ rewrite !lookup_delete_ne by done. by apply Hh1.
Qed.

Lemma init_heap m this p d s0 s1 :
  shared_ptr_init m this p d s0 = Some (true, s1) →
  heap s0 !! m = None ∧ heap s1 = <[m := U32 1]> (heap s0).
Proof.
  intros Hinit.
  destruct (init_inv _ _ _ _ _ _ _ Hinit)
    as (h & Hthis & [[_ ?]|(Hm & Hfresh & _)]); [done|].
  rewrite (init_succeeds _ _ _ _ h) in Hinit by done.
  by injection Hinit as <-.
Qed.

(** While a handle of the group is live nothing is freed and no
    destructor runs: after a successful constructor call and any
    disciplined sequence that leaves a handle live (at most 2^32 - 1 live
    at once), the trace is that of the constructor, every block other
    than the counter cell, the payload among them, is as it was before
    the constructor, and every live handle still holds the counter cell
    and the payload address. *)
Theorem nothing_freed_while_a_handle_lives m this p d s0 s1 ops live :
  shared_ptr_init m this p d s0 = Some (true, s1) →
  p = NULL ∨ is_Some (heap s0 !! p) →
  declared s0 ops →
  track {[this]} ops = Some live →
  Z.of_nat (peak {[this]} ops) ≤ UINT32_MAX →
  live ≠ ∅ →
  ∃ s2, run ops s1 = Some (tt, s2)
        ∧ trace s2 = trace s1
        ∧ (∀ a, a ≠ m → heap s2 !! a = heap s0 !! a)
        ∧ (∀ a, a ∈ live →
                ∃ h, objs s2 !! a = Some h ∧ refcount h = m ∧ ptr h = p).
Proof.
  intros Hinit Hp Hdecl Htrack Hpeak Hlive.
  destruct (init_group _ _ _ _ _ _ Hinit Hp) as (Hgrp & Hobjs & _).
  destruct (init_heap _ _ _ _ _ _ Hinit) as [_ Hheap].
  assert (Hdecl1 : declared s1 ops) by (by eapply declared_init).
  destruct (run_group m p ops {[this]} s1 live)
    as (s2 & Hrun & _ & Hstill & _); [set_solver|done..|].
  destruct (run_group_heap m p ops {[this]} s1 live s2) as [Hh _];
    [set_solver|done..|].
  destruct (Hstill Hlive) as [(_ & Hhandles & _) Htr].
  exists s2. split; [done|]. split; [done|]. split; [|done].
  intros a Ha. rewrite (Hh Hlive a Ha), Hheap. by rewrite lookup_insert_ne.
Qed.

Lemma nothing_freed_while_a_handle_lives_witness :
  ∃ s2, run [Share 2000 1000; Release 1000] st_built = Some (tt, s2)
        ∧ trace s2 = trace st_built
        ∧ (∀ a, a ≠ 32 → heap s2 !! a = heap st_fresh !! a)
        ∧ (∀ a, a ∈ ({[2000]} : gset Z) →
                ∃ h, objs s2 !! a = Some h ∧ refcount h = 32 ∧ ptr h = 64).
Proof.
  apply (nothing_freed_while_a_handle_lives 32 1000 64 7 st_fresh st_built
           [Share 2000 1000; Release 1000] {[2000]}).
  - vm_compute. reflexivity.
  - right. by eexists.
  - repeat constructor; by eexists.
  - vm_compute. reflexivity.
  - by vm_compute.
  - intros Heq. assert (Hin : 2000 ∈ ({[2000]} : gset Z)) by set_solver.
    rewrite Heq in Hin. by apply not_elem_of_empty in Hin.
Defined.



(** Used in scope order the header keeps its promise: when the handle
    that was constructed is the last one released, the destructor given
    to the constructor (not null) runs exactly once, on the payload, in
    that last release, after the counter cell is freed and before the
    payload is. *)
Theorem scope_order_runs_finalizer_once m this p d s0 s1 ops :
  shared_ptr_init m this p d s0 = Some (true, s1) →
  p = NULL ∨ is_Some (heap s0 !! p) →
  declared s0 ops →
  track {[this]} ops = Some ∅ →
  Z.of_nat (peak {[this]} ops) ≤ UINT32_MAX →
  last ops = Some (Release this) → d ≠ NULL →
  ∃ s2, run ops s1 = Some (tt, s2)
        ∧ trace s2 = trace s1 ++ [EvFree m; EvCall d p; EvFree p]
        ∧ finalizer_runs (trace s2) = S (finalizer_runs (trace s1)).
Proof.
  intros Hinit Hp Hdecl Htrack Hpeak Hlast Hd.
  destruct (init_group _ _ _ _ _ _ Hinit Hp) as (Hgrp & Hobjs & _).
  assert (Hdecl1 : declared s1 ops) by (by eapply declared_init).
  destruct (run_group m p ops {[this]} s1 ∅)
    as (s2 & Hrun & Hdtor & _ & Hdead); [set_solver|done..|].
  destruct Hdead as (a & h & Hlast' & Hh & Hrc & Hptr & Htr & _); [done|].
  rewrite Hlast in Hlast'. injection Hlast' as <-.
  pose proof (Hdtor this) as Hsame.
  rewrite Hh, Hobjs, lookup_insert_eq in Hsame. injection Hsame as Hsame.
  exists s2. split; [done|].
  assert (Htr' : trace s2 = trace s1 ++ [EvFree m; EvCall d p; EvFree p]).
  { rewrite Htr. unfold teardown. rewrite Hrc, Hptr, Hsame.
    by rewrite decide_False. }
  split; [done|]. rewrite Htr'. unfold finalizer_runs.
  rewrite filter_app, length_app. simpl. lia.
Qed.

Lemma scope_order_runs_finalizer_once_witness :
  ∃ s2, run [Share 2000 1000; Release 2000; Release 1000] st_built
        = Some (tt, s2)
        ∧ trace s2 = trace st_built ++ [EvFree 32; EvCall 7 64; EvFree 64]
        ∧ finalizer_runs (trace s2) = S (finalizer_runs (trace st_built)).
Proof.
  apply (scope_order_runs_finalizer_once 32 1000 64 7 st_fresh st_built
           [Share 2000 1000; Release 2000; Release 1000]).
  - vm_compute. reflexivity.
  - right. by eexists.
  - repeat constructor; by eexists.
  - vm_compute. reflexivity.
  - by vm_compute.
  - reflexivity.
  - discriminate.
Defined.

(** ** [example.c] *)

Lemma lib_quiet {A} td (c : M A) w a s' :
  c (mem w) = Some (a, s') → trace s' = trace (mem w) →
  lib td c w = Some (a, {| mem := s'; stdout := stdout w |}).
Proof.
  intros Hrun Htr. unfold lib. rewrite Hrun, Htr, drop_all. done.
Qed.

Lemma lib_events {A} td (c : M A) w a s' evs :
  c (mem w) = Some (a, s') → trace s' = trace (mem w) ++ evs →
  lib td c w
  = match run_calls td evs {| mem := s'; stdout := stdout w |} with
    | Some (_, w') => Some (a, w')
    | None => None
    end.
Proof.
  intros Hrun Htr. unfold lib. by rewrite Hrun, Htr, drop_app_length.
Qed.

Lemma lib_undefined {A} td (c : M A) w :
  c (mem w) = None → lib td c w = None.
Proof. intros Hrun. unfold lib. by rewrite Hrun. Qed.

Lemma print_val1_runs td loc junk ptr_ hs n v w :
  objs (mem w) !! loc = None →
  objs (mem w) !! ptr_ = Some hs →
  heap (mem w) !! refcount hs = Some (U32 n) → 1 ≤ n < UINT32_MAX →
  heap (mem w) !! ptr hs = Some (U32 v) → ptr hs ≠ refcount hs →
  print_val1 td loc junk ptr_ w
  = Some (tt, {| mem := mem w;
                 stdout := stdout w
                           ++ [Printf "The value of val1 is: %d\n"
                                 [int_of_u32 v]] |}).
Proof.
  intros Hloc Hptr Hcell Hn Hval Hpr.
  assert (Hne : loc ≠ ptr_) by congruence.
  destruct w as [[ob hp tr] out]. simpl in *.
  unfold print_val1, RAII_SHARED_PTR, pbind.
  erewrite lib_quiet; [|by unfold declare; simpl; rewrite Hloc|done].
  erewrite lib_quiet; [| |].
  2:{ eapply (copy_runs _ _ junk hs n); simpl; by simplify_map_eq. }
  2:{ done. }
  assert (Hup : u32 (n + 1) = n + 1).
  { unfold u32, UINT32_MAX in *. apply Z.mod_small. lia. }
  assert (Hdown : u32 (n + 1 - 1) = n).
  { unfold u32, UINT32_MAX in *. rewrite Z.mod_small; lia. }
  erewrite lib_quiet; [| |].
  2:{ unfold D_val1, bind, read, load_u32, ret. simpl. by simplify_map_eq. }
  2:{ done. }
  unfold printf. simpl.
  erewrite lib_quiet; [| |].
  2:{ eapply (cleanup_keeps _ (Shared_ptr (refcount hs) (ptr hs) (ptr_destructor junk)) (n + 1)); simpl.
      - by simplify_map_eq.
      - rewrite Hup. by simplify_map_eq.
      - rewrite Hdown. lia. }
  2:{ done. }
  erewrite lib_quiet; [| |].
  2:{ unfold leave. simpl. done. }
  2:{ done. }
  unfold pret. simpl. do 3 f_equal.
  f_equal.
  - rewrite delete_insert_eq, delete_insert_id; done.
  - rewrite Hdown, insert_insert_eq, insert_id; done.
Qed.


(** [print_val1] on a handle of a live group: with the counter at [n],
    [1 ≤ n < 2^32 - 1], and a [struct test] as payload, the function
    prints the payload's [val1] and returns with the memory exactly as it
    found it. Its local copy raised the counter and the scope exit
    lowered it again; nothing was freed and no destructor ran. *)
Theorem print_val1_round_trip td loc junk ptr_ hs n v w :
  objs (mem w) !! loc = None →
  objs (mem w) !! ptr_ = Some hs →
  heap (mem w) !! refcount hs = Some (U32 n) → 1 ≤ n < UINT32_MAX →
  heap (mem w) !! ptr hs = Some (U32 v) → ptr hs ≠ refcount hs →
  print_val1 td loc junk ptr_ w
  = Some (tt, {| mem := mem w;
                 stdout := stdout w
                           ++ [Printf "The value of val1 is: %d\n"
                                 [int_of_u32 v]] |}).
Proof. apply print_val1_runs. Qed.

Lemma print_val1_round_trip_witness :
  print_val1 4096 2000 (Shared_ptr 4 5 6) 1000 w_val
  = Some (tt, {| mem := mem w_val;
                 stdout := stdout w_val
                           ++ [Printf "The value of val1 is: %d\n"
                                 [int_of_u32 5]] |}).
Proof.
  apply (print_val1_round_trip 4096 2000 (Shared_ptr 4 5 6) 1000
           (Shared_ptr 32 64 4096) 1 5 w_val);
    [reflexivity | reflexivity | reflexivity | by vm_compute
    | reflexivity | discriminate].
Defined.

(** [main] when both allocations succeed: it returns 0 having printed,
    in this order, the value 100 it stored in the payload, the line after
    the return from [print_val1], and the destructor's line; the
    destructor ran once, on the payload, between the two [free]s of the
    scope exit; and both blocks it allocated are freed, the heap and the
    variables being what they were before the call. *)
Theorem main_prints_and_frees td test_ptr junk mp mc loc junk' w :
  td ≠ NULL →
  objs (mem w) !! test_ptr = None → objs (mem w) !! loc = None →
  loc ≠ test_ptr →
  mp ≠ NULL → heap (mem w) !! mp = None →
  mc ≠ NULL → heap (mem w) !! mc = None → mc ≠ mp →
  main td test_ptr junk mp mc loc junk' w
  = Some (0, {| mem := {| objs := objs (mem w);
                          heap := heap (mem w);
                          trace := trace (mem w)
                                   ++ [EvMalloc sizeof_struct_test mp;
                                       EvMalloc sizeof_uint32_t mc;
                                       EvFree mc; EvCall td mp; EvFree mp] |};
                stdout := stdout w
                          ++ [Printf "The value of val1 is: %d\n" [100];
                              Printf "returned from print_val1!\n" [];
                              Printf "Destructing test struct!\n" []] |}).
Proof.
  intros Htd Htest Hloc Hne Hmp Hfp Hmc Hfc Hcp.
  destruct w as [[ob hp tr] out]. simpl in *.
  unfold main, RAII_SHARED_PTR, pbind.
  erewrite lib_quiet; [|by unfold declare; simpl; rewrite Htest|done].
  unfold main_body, pbind.
  erewrite (lib_events _ _ _ _ _ [EvMalloc sizeof_struct_test mp]); [| |].
  2:{ unfold malloc. simpl. rewrite decide_False by done. rewrite Hfp. done. }
  2:{ done. }
  simpl.
  erewrite (lib_events _ _ _ _ _ [EvMalloc sizeof_uint32_t mc]); [| |].
  2:{ eapply (init_succeeds _ _ _ _ junk); simpl; by simplify_map_eq. }
  2:{ done. }
  simpl.
  erewrite lib_quiet; [| |].
  2:{ unfold D_val1_assign, bind, read, store_u32. simpl. by simplify_map_eq. }
  2:{ done. }
  change (u32 100) with 100.
  erewrite (print_val1_runs _ _ _ _ (Shared_ptr mc mp td) 1 100); simpl;
    [|by simplify_map_eq..|done].
  change (int_of_u32 100) with 100.
  erewrite (lib_events _ _ _ _ _ (teardown (Shared_ptr mc mp td))); [| |].
  2:{ eapply (cleanup_frees _ (Shared_ptr mc mp td) 1); simpl;
        try (by simplify_map_eq).
      right. split; [done|]. by simplify_map_eq. }
  2:{ done. }
  unfold teardown. simpl. rewrite decide_False by done. simpl.
  unfold call_through. rewrite decide_True by done.
  unfold test_destructor_body, printf, pbind, pret. simpl.
  erewrite lib_quiet; [| |].
  2:{ unfold leave. simpl. done. }
  2:{ done. }
  simpl. do 3 f_equal.
  - f_equal.
    + rewrite insert_insert_eq, delete_insert_id; done.
    + unfold heap_free. rewrite decide_False by done.
      apply map_eq. intros a.
      destruct (decide (a = mp)) as [->|?]; [by simplify_map_eq|].
      destruct (decide (a = mc)) as [->|?]; by simplify_map_eq.
    + by rewrite <- !app_assoc.
  - by rewrite <- !app_assoc.
Qed.


Lemma main_prints_and_frees_witness :
  main 4096 1000 (Shared_ptr 1 2 3) 64 32 2000 (Shared_ptr 4 5 6) w_start
  = Some (0, {| mem := {| objs := objs (mem w_start);
                          heap := heap (mem w_start);
                          trace := trace (mem w_start)
                                   ++ [EvMalloc sizeof_struct_test 64;
                                       EvMalloc sizeof_uint32_t 32;
                                       EvFree 32; EvCall 4096 64; EvFree 64] |};
                stdout := stdout w_start
                          ++ [Printf "The value of val1 is: %d\n" [100];
                              Printf "returned from print_val1!\n" [];
                              Printf "Destructing test struct!\n" []] |}).
Proof.
  apply (main_prints_and_frees 4096 1000 (Shared_ptr 1 2 3) 64 32 2000
           (Shared_ptr 4 5 6) w_start);
    first [reflexivity | discriminate].
Defined.

(** [main] when the counter allocation fails: the constructor returns
    false, [main] prints its failure line and returns 1 from inside the
    scope of [test_ptr]; the [struct test] block, if it was allocated, is
    still live (nobody frees it); and the scope exit then runs the
    destructor on the handle whose counter pointer is null, which is
    undefined: [main] has no defined outcome. *)
Theorem main_undefined_when_counter_allocation_fails td test_ptr junk mp loc junk' w :
  objs (mem w) !! test_ptr = None → heap (mem w) !! NULL = None →
  mp = NULL ∨ heap (mem w) !! mp = None →
  ∃ w1 w2,
    lib td (declare test_ptr junk) w = Some (tt, w1)
    ∧ main_body td test_ptr mp NULL loc junk' w1 = Some (1, w2)
    ∧ stdout w2 = stdout w ++ [Printf "Failed to create shared_ptr!\n" []]
    ∧ heap (mem w2) !! mp = (if decide (mp = NULL) then None else Some Undef)
    ∧ lib td (shared_ptr_cleanup test_ptr) w2 = None
    ∧ main td test_ptr junk mp NULL loc junk' w = None.
Proof.
  intros Htest Hnull Hmp.
  destruct w as [[ob hp tr] out]. simpl in *.
  assert (Hdecl : lib td (declare test_ptr junk)
                    {| mem := {| objs := ob; heap := hp; trace := tr |};
                       stdout := out |}
                  = Some (tt, {| mem := {| objs := <[test_ptr := junk]> ob;
                                           heap := hp; trace := tr |};
                                 stdout := out |})).
  { erewrite lib_quiet; [done|by unfold declare; simpl; rewrite Htest|done]. }
  set (hp1 := if decide (mp = NULL) then hp else <[mp := Undef]> hp).
  assert (Hnull1 : hp1 !! NULL = None).
  { subst hp1. case_decide; [done|]. by rewrite lookup_insert_ne. }
  assert (Hbody : main_body td test_ptr mp NULL loc junk'
                    {| mem := {| objs := <[test_ptr := junk]> ob;
                                 heap := hp; trace := tr |};
                       stdout := out |}
                  = Some (1, {| mem := {| objs := <[test_ptr := Shared_ptr NULL mp td]> ob;
                                          heap := hp1;
                                          trace := (tr ++ [EvMalloc sizeof_struct_test mp])
                                                   ++ [EvMalloc sizeof_uint32_t NULL] |};
                                stdout := out ++ [Printf "Failed to create shared_ptr!\n" []] |})).
  { unfold main_body, pbind.
    erewrite (lib_events _ _ _ _ _ [EvMalloc sizeof_struct_test mp]); [| |].
    2:{ instantiate (1 := {| objs := <[test_ptr := junk]> ob; heap := hp1;
                             trace := tr ++ [EvMalloc sizeof_struct_test mp] |}).
        instantiate (1 := mp).
        unfold malloc. subst hp1. simpl.
        destruct Hmp as [->|Hfp]; [done|].
        case_decide; [by subst|]. by rewrite Hfp. }
    2:{ done. }
    simpl.
    erewrite (lib_events _ _ _ _ _ [EvMalloc sizeof_uint32_t NULL]); [| |].
    2:{ eapply (init_fails _ _ _ junk). simpl. by simplify_map_eq. }
    2:{ done. }
    simpl. by rewrite insert_insert_eq. }
  assert (Hclean : lib td (shared_ptr_cleanup test_ptr)
                     {| mem := {| objs := <[test_ptr := Shared_ptr NULL mp td]> ob;
                                  heap := hp1;
                                  trace := (tr ++ [EvMalloc sizeof_struct_test mp])
                                           ++ [EvMalloc sizeof_uint32_t NULL] |};
                        stdout := out ++ [Printf "Failed to create shared_ptr!\n" []] |}
                   = None).
  { apply lib_undefined. apply eq_None_not_Some. rewrite cleanup_defined.
    intros (h & n & Hh & Hcell & _). revert Hh Hcell. simpl.
    rewrite lookup_insert_eq. intros [= <-]. simpl. by rewrite Hnull1. }
  eexists _, _. split; [exact Hdecl|]. split; [exact Hbody|].
  split; [done|]. split.
  { simpl. subst hp1. case_decide; [by subst|]. by rewrite lookup_insert_eq. }
  split; [exact Hclean|].
  unfold main, RAII_SHARED_PTR, pbind. by rewrite Hdecl, Hbody, Hclean.
Qed.


Lemma main_undefined_when_counter_allocation_fails_witness :
  ∃ w1 w2,
    lib 4096 (declare 1000 (Shared_ptr 1 2 3)) w_start = Some (tt, w1)
    ∧ main_body 4096 1000 64 NULL 2000 (Shared_ptr 4 5 6) w1 = Some (1, w2)
    ∧ stdout w2
      = stdout w_start ++ [Printf "Failed to create shared_ptr!\n" []]
    ∧ heap (mem w2) !! 64 = (if decide (64 = NULL) then None else Some Undef)
    ∧ lib 4096 (shared_ptr_cleanup 1000) w2 = None
    ∧ main 4096 1000 (Shared_ptr 1 2 3) 64 NULL 2000 (Shared_ptr 4 5 6)
        w_start = None.
Proof.
  apply (main_undefined_when_counter_allocation_fails 4096 1000
           (Shared_ptr 1 2 3) 64 2000 (Shared_ptr 4 5 6) w_start);
    [reflexivity | reflexivity | right; reflexivity].
Defined.



(** ** Typed access through the handles of a group *)

Lemma int_of_u32_u32 v :
  -2147483648 ≤ v < 2147483648 → int_of_u32 (u32 v) = v.
Proof.
  intros Hv. unfold int_of_u32, u32.
  destruct (decide (0 ≤ v)) as [Hpos|Hneg].
  - rewrite Z.mod_small by lia. case_decide; lia.
  - replace (v `mod` 4294967296) with (v + 4294967296).
    + case_decide; lia.
    + apply Z.mod_unique with (q := -1); lia.
Qed.

(** The handles of a group share the payload: after a copy, an [int]
    assigned to [val1] through the source handle is the value read
    through the copy. *)
Theorem value_stored_through_one_handle_is_read_through_the_other
    this that hd hs n b v s :
  objs s !! this = Some hd → objs s !! that = Some hs →
  heap s !! refcount hs = Some (U32 n) →
  heap s !! ptr hs = Some b → b ≠ Payload → ptr hs ≠ refcount hs →
  -2147483648 ≤ v < 2147483648 →
  ∃ s', (shared_ptr_copy this that ;;
         D_val1_assign that v ;;
         D_val1 this) s = Some (v, s')
        ∧ heap s' !! ptr hs = Some (U32 (u32 v)).
Proof.
  intros Hthis Hthat Hcell Hblock Hb Hne Hv.
  unfold bind at 1. rewrite (copy_runs _ _ hd hs n) by done.
  eexists. split.
  - unfold D_val1_assign, D_val1, bind, read, load_u32, store_u32, ret. simpl.
    destruct (decide (this = that)) as [->|Hdiff]; simplify_map_eq;
      destruct b; try done; simpl; simplify_map_eq;
      by rewrite int_of_u32_u32.
  - simpl. by simplify_map_eq.
Qed.

Lemma value_stored_through_one_handle_is_read_through_the_other_witness :
  ∃ s', (shared_ptr_copy 2000 1000 ;;
         D_val1_assign 1000 (-3) ;;
         D_val1 2000) st_val = Some (-3, s')
        ∧ heap s' !! ptr (Shared_ptr 32 64 4096) = Some (U32 (u32 (-3))).
Proof.
  apply (value_stored_through_one_handle_is_read_through_the_other
           2000 1000 (Shared_ptr 4 5 6) (Shared_ptr 32 64 4096) 1 (U32 5)
           (-3) st_val);
    first [reflexivity | discriminate | by vm_compute].
Defined.
